(** * The pandas execution core of ibis: [ibis/pandas/core.py]

    A shallow embedding of [find_data], [execute_with_scope] and
    [execute_without_scope], and the properties of the engine that follow
    from the code.

    Python objects that the engine only passes around are values of
    [pyobj].  Expression nodes live in an arena ([heap]): a node is known by
    its index, which plays the part of the object identity that Python's
    [set] and [dict] hash on.  An [OrderedDict] is an association list in
    insertion order.  The evaluators reached through the dispatchers
    ([execute_first], [execute_node], [data_preload]) are not part of this
    file of the program: they are variables of the sections below.  The
    dispatcher [execute] on an expression and a dictionary is
    [execute_with_scope], as registered, and on an expression alone it is
    [execute_without_scope].  The keyword arguments that the functions hand
    on untouched are left out. *)

From stdpp Require Import gmap strings list.

Set Default Proof Using "Type".

(** ** Data model *)

Abbreviation node_id := nat.

(** [ir.Expr]: a wrapper around a node; [expr.op()] is the node. *)
Record Expr := mkExpr { op : node_id }.

(** The objects found as node arguments, as bound data and as results. *)
Inductive pyobj :=
| PExpr (e : Expr)            (* ir.Expr *)
| PDataType (d : string)      (* dt.DataType *)
| PNone                       (* type(None) *)
| PInt (z : Z)                (* integer_types *)
| PFloat (bits : Z)           (* floating_types, numbers.Real *)
| PBool (b : bool)            (* boolean_types *)
| PTemporal (ticks : Z)       (* temporal_types *)
| PStr (s : string)           (* six.string_types *)
| PObj (tag : nat).           (* anything else: a DataFrame, a schema, ... *)

(** [node.source]: the client object; only its [dictionary] is read. *)
Record Source := mkSource { dictionary : gmap string pyobj }.

Inductive NodeClass :=
| Literal (value : pyobj)     (* isinstance(node, ir.Literal), node.value *)
| Operation (kind : string).  (* any other subclass of Node *)

Record Node := mkNode {
  cls : NodeClass;
  args : list pyobj;             (* node.args *)
  source : option Source;        (* hasattr(node, 'source') *)
  name : string;                 (* node.name *)
  root_tables : list node_id     (* node.root_tables() *)
}.

Abbreviation heap := (list Node).

(** An index outside the arena stands for no Python object; it reads as an
    operation without arguments. *)
Definition no_node : Node :=
  mkNode (Operation "") [] None "" [].

Definition get_node (h : heap) (n : node_id) : Node :=
  default no_node (h !! n).

Inductive exn :=
| KeyError
| ValueError             (* 'No data sources found ...' *)
| NotImplementedError
| OtherError (msg : string).

(** The outcome of a Python call: a value or a raised exception. *)
Inductive result (A : Type) :=
| Ok (a : A)
| Raise (e : exn).
Arguments Ok {A} a.
Arguments Raise {A} e.

(** ** [collections.OrderedDict] keyed by nodes *)

Module OD.

Abbreviation t := (list (node_id * pyobj)).

Definition empty : t := [].

Definition keys (d : t) : list node_id := d.*1.

(** [d[k]], [None] standing for [KeyError]; [k in d] is [is_Some]. *)
Fixpoint get (k : node_id) (d : t) : option pyobj :=
  match d with
  | [] => None
  | (k', v) :: r => if decide (k = k') then Some v else get k r
  end.

(** [d[k] = v]: an existing key keeps its place, a new one goes last. *)
Fixpoint set (k : node_id) (v : pyobj) (d : t) : t :=
  match d with
  | [] => [(k, v)]
  | (k', v') :: r =>
      if decide (k = k') then (k, v) :: r else (k', v') :: set k v r
  end.

(** [d.update(other)] for a mapping or a sequence of pairs. *)
Definition update (d : t) (other : list (node_id * pyobj)) : t :=
  foldl (λ acc kv, set kv.1 kv.2 acc) d other.

(** A list of pairs is a dictionary when no key occurs twice. *)
Definition wf (d : t) : Prop := NoDup (keys d).

End OD.

Abbreviation Scope := OD.t.

(** [toolz.merge] of a sequence of dictionaries into a fresh [factory()]:
    [rv = factory(); for d in dicts: rv.update(d); return rv]. *)
Definition toolz_merge (dicts : list OD.t) : OD.t :=
  foldl OD.update OD.empty dicts.

(** ** [find_data] *)

(** [stack.pop()]: the last element of a Python list. *)
Definition pop {A} (l : list A) : option (A * list A) :=
  match reverse l with
  | [] => None
  | x :: r => Some (x, reverse r)
  end.

(** [arg for arg in reversed(node.args) if isinstance(arg, ir.Expr)] *)
Definition as_Expr (a : pyobj) : option Expr :=
  match a with PExpr e => Some e | _ => None end.

Definition pushed_args (nd : Node) : list Expr :=
  omap as_Expr (reverse (args nd)).

(** What a node contributes to [data]: the bound container of a node with a
    [source] (a missing name raises [KeyError]), else the value of a
    [Literal], else nothing. *)
Definition node_data (nd : Node) : option (result pyobj) :=
  match source nd with
  | Some src =>
      Some (match dictionary src !! name nd with
            | Some v => Ok v
            | None => Raise KeyError
            end)
  | None =>
      match cls nd with
      | Literal v => Some (Ok v)
      | Operation _ => None
      end
  end.

(** The local variables of [find_data], with two counters that the code
    does not keep: the nodes in the order [seen.add] took them, and the
    number of elements [stack.extend] has appended. *)
Record walk := mkWalk {
  stack : list Expr;
  seen : gset node_id;
  data : OD.t;
  visits : list node_id;
  pushes : nat
}.

(** The [while stack:] loop.  [None]: the fuel ran out. *)
Fixpoint find_data_loop (h : heap) (fuel : nat) (w : walk)
  : option (result unit) * walk :=
  match fuel with
  | 0 => (None, w)
  | S fuel' =>
      match pop (stack w) with
      | None => (Some (Ok tt), w)
      | Some (e, stack') =>
          let node := op e in
          if decide (node ∈ seen w) then
            find_data_loop h fuel'
              (mkWalk stack' (seen w) (data w) (visits w) (pushes w))
          else
            let nd := get_node h node in
            let seen' := {[node]} ∪ seen w in
            let visits' := visits w ++ [node] in
            let new := pushed_args nd in
            match node_data nd with
            | Some (Raise x) =>
                (Some (Raise x),
                 mkWalk stack' seen' (data w) visits' (pushes w))
            | Some (Ok v) =>
                find_data_loop h fuel'
                  (mkWalk (stack' ++ new) seen' (OD.set node v (data w))
                          visits' (pushes w + length new))
            | None =>
                find_data_loop h fuel'
                  (mkWalk (stack' ++ new) seen' (data w)
                          visits' (pushes w + length new))
            end
      end
  end.

Definition expr_args (nd : Node) : list Expr := omap as_Expr (args nd).

(** Every pop takes one element off a stack that starts with one element
    and grows by the [Expr] arguments of each node once; one more turn sees
    the empty stack. *)
Definition walk_fuel (h : heap) : nat :=
  2 + sum_list_with (λ nd, length (expr_args nd)) h.

Definition walk_init (expr : Expr) : walk :=
  mkWalk [expr] ∅ OD.empty [] 0.

Definition find_data_run (h : heap) (expr : Expr)
  : option (result unit) * walk :=
  find_data_loop h (walk_fuel h) (walk_init expr).

Definition find_data (h : heap) (expr : Expr) : option (result OD.t) :=
  match find_data_run h expr with
  | (Some (Ok _), w) => Some (Ok (data w))
  | (Some (Raise x), _) => Some (Raise x)
  | (None, _) => None
  end.

(** ** The engine: [execute_with_scope] and [execute_without_scope] *)

(** [ibis.pandas.context]: the tag that selects evaluation semantics. *)
Inductive Context :=
| Summarize
| Transform
| OtherContext (tag : nat).

(** What the engine asks of its collaborators, in the order it asks. *)
Inductive event :=
| CallFirst (n : node_id) (leaves : list pyobj) (c : Context)
| CallNode (n : node_id) (computed_args : list pyobj) (c : Context)
| CallPreload (n : node_id) (raw : pyobj).

(** A computation on the one [scope] dictionary that all calls of a run
    share: it ends with a value or an exception, leaves the dictionary in
    some state, and has asked its collaborators some questions.  [None]:
    the fuel of the recursion ran out. *)
Definition M (A : Type) : Type :=
  Scope → option (result A * Scope * list event).

Definition ret {A} (a : A) : M A := λ s, Some (Ok a, s, []).

Definition bind {A B} (m : M A) (f : A → M B) : M B := λ s,
  match m s with
  | None => None
  | Some (Raise x, s1, l1) => Some (Raise x, s1, l1)
  | Some (Ok a, s1, l1) =>
      match f a s1 with
      | None => None
      | Some (r, s2, l2) => Some (r, s2, l1 ++ l2)
      end
  end.

(** [try: m  except NotImplementedError: pass] followed by [k], where [m]
    returns from the function when it succeeds. *)
Definition or_else_if_not_implemented {A} (m k : M A) : M A := λ s,
  match m s with
  | Some (Raise NotImplementedError, s1, l1) =>
      match k s1 with
      | None => None
      | Some (r, s2, l2) => Some (r, s2, l1 ++ l2)
      end
  | other => other
  end.

Declare Scope engine_scope.
Delimit Scope engine_scope with engine.
Notation "'let*' x := m 'in' k" := (bind m (λ x, k))
  (at level 10, x name, m at level 100, k at level 200) : engine_scope.

(** What stands behind the dispatchers [execute_first] and [execute_node]:
    called on a node, the positional arguments, the scope dictionary and
    the context, it returns or raises, and leaves the dictionary in some
    state. *)
Definition evaluator : Type :=
  node_id → list pyobj → Scope → Context → result pyobj * Scope.

(** A dispatcher that finds no implementation for the types it is given
    raises [NotImplementedError] and runs nothing. *)
Definition not_registered : evaluator :=
  λ _ _ s _, (Raise NotImplementedError, s).

(** [isinstance(arg, _VALID_INPUT_TYPES)], with
    [_VALID_INPUT_TYPES = (ir.Expr, dt.DataType, type(None)) + scalar_types];
    strings are in [simple_types] only. *)
Definition is_valid_input (a : pyobj) : bool :=
  match a with
  | PExpr _ | PDataType _ | PNone
  | PInt _ | PFloat _ | PBool _ | PTemporal _ => true
  | PStr _ | PObj _ => false
  end.

(** [[scope[t] for t in op.root_tables()]], [None] for [KeyError]. *)
Definition root_values (scope : Scope) (nd : Node) : option (list pyobj) :=
  mapM (λ t, OD.get t scope) (root_tables nd).

Section Engine.

Variable h : heap.

(** [execute_first] and [execute_node] are handed the scope dictionary
    itself and may leave it changed; [data_preload] is handed it while
    its items are being iterated and only reads it. *)
Variable execute_first : evaluator.
Variable execute_node : evaluator.
Variable data_preload : node_id → pyobj → Scope → result pyobj.

Definition call_first (n : node_id) (leaves : list pyobj) (c : Context)
  : M pyobj := λ s,
  let '(r, s') := execute_first n leaves s c in
  Some (r, s', [CallFirst n leaves c]).

Definition call_node (n : node_id) (computed : list pyobj) (c : Context)
  : M pyobj := λ s,
  let '(r, s') := execute_node n computed s c in
  Some (r, s', [CallNode n computed c]).

Definition call_preload (n : node_id) (raw : pyobj) : M pyobj := λ s,
  Some (data_preload n raw s, s, [CallPreload n raw]).

Definition set_item (n : node_id) (v : pyobj) : M unit := λ s,
  Some (Ok tt, OD.set n v s, []).

(** The comprehension
    [[execute(arg, scope, context=context) if hasattr(arg, 'op') else arg
      for arg in args if isinstance(arg, _VALID_INPUT_TYPES)]],
    [rec] being [execute] on an expression and the shared scope. *)
Fixpoint compute_args (rec : Expr → M pyobj) (l : list pyobj)
  : M (list pyobj) :=
  match l with
  | [] => ret []
  | arg :: rest =>
      if is_valid_input arg then
        (let* v := match as_Expr arg with
                   | Some e => rec e
                   | None => ret arg
                   end in
         let* vs := compute_args rec rest in
         ret (v :: vs))%engine
      else compute_args rec rest
  end.

(** Lines 111 to 126: the arguments, then the operation. *)
Definition general_case (rec : Expr → M pyobj) (n : node_id)
           (c : Context) : M pyobj :=
  (let* computed_args := compute_args rec (args (get_node h n)) in
   call_node n computed_args c)%engine.

Fixpoint execute_with_scope (fuel : nat) (expr : Expr)
         (context : option Context) : M pyobj := λ scope,
  let n := op expr in
  match OD.get n scope with
  | Some v => Some (Ok v, scope, [])
  | None =>
      match fuel with
      | 0 => None
      | S fuel' =>
          let c := default Summarize context in
          let general :=
            general_case
              (λ arg, execute_with_scope fuel' arg (Some c)) n c in
          match root_values scope (get_node h n) with
          | None => general scope
          | Some leaves =>
              or_else_if_not_implemented (call_first n leaves c)
                                         general scope
          end
      end
  end.

(** The keys of [params] are expressions or nodes:
    [k.op() if hasattr(k, 'op') else k]. *)
Inductive param_key :=
| KExpr (e : Expr)
| KNode (n : node_id).

Definition normalize_key (k : param_key) : node_id :=
  match k with
  | KExpr e => op e
  | KNode n => n
  end.

Definition normalize_params (params : list (param_key * pyobj)) : OD.t :=
  foldl (λ acc kv, OD.set (normalize_key kv.1) kv.2 acc) OD.empty params.

(** Line 168. *)
Definition new_scope (scope : option Scope)
           (params : option (list (param_key * pyobj)))
           (data_scope : OD.t) : Scope :=
  toolz_merge [default OD.empty scope; data_scope;
               normalize_params (default [] params)].

(** Lines 169 to 172: [update] draws the pairs one at a time from a
    generator over the items of the dictionary it is writing to.  The
    [i]-th item is read, the hook is called on the dictionary as it is
    then, and the result is stored under the same key; [n] bounds the
    number of items left. *)
Fixpoint preload_items (n i : nat) : M unit := λ s,
  match n with
  | 0 => ret tt s
  | S n' =>
      match s !! i with
      | None => ret tt s
      | Some (node, raw) =>
          (let* v := call_preload node raw in
           let* _ := set_item node v in
           preload_items n' (S i))%engine s
      end
  end.

Definition execute_without_scope (fuel : nat) (expr : Expr)
           (params : option (list (param_key * pyobj)))
           (scope : option Scope) (context : option Context)
  : option (result pyobj * Scope * list event) :=
  match find_data h expr with
  | None => None
  | Some (Raise x) => Some (Raise x, OD.empty, [])
  | Some (Ok data_scope) =>
      match data_scope with
      | [] => Some (Raise ValueError, OD.empty, [])
      | _ :: _ =>
          let s := new_scope scope params data_scope in
          (let* _ := preload_items (length s) 0 in
           execute_with_scope fuel expr
             (Some (default Summarize context)))%engine s
      end
  end.

End Engine.

(** ** The example graph [Add(Literal(2), Add(BoundX, Literal(3)))] *)

Module Example.

Definition Lit2 : node_id := 0.
Definition Lit3 : node_id := 1.
Definition BoundX : node_id := 2.
Definition Inner : node_id := 3.
Definition Root : node_id := 4.

Definition client : Source := mkSource {[ "x" := PInt 5 ]}.

Definition graph : heap :=
  [ mkNode (Literal (PInt 2)) [PInt 2; PDataType "int8"] None "" [];
    mkNode (Literal (PInt 3)) [PInt 3; PDataType "int8"] None "" [];
    mkNode (Operation "Table") [PStr "x"; PObj 0; PObj 1]
           (Some client) "x" [BoundX];
    mkNode (Operation "Add") [PExpr (mkExpr BoundX); PExpr (mkExpr Lit3)]
           None "" [BoundX];
    mkNode (Operation "Add") [PExpr (mkExpr Lit2); PExpr (mkExpr Inner)]
           None "" [BoundX] ].

Definition root : Expr := mkExpr Root.

(** The evaluators of the example: [Add] on two integers is the only
    operation implemented, no fast path is registered, and the preload
    hook returns the data as they are. *)
Definition add_node : evaluator := λ n computed s _,
  match cls (get_node graph n), computed with
  | Operation "Add", [PInt a; PInt b] => (Ok (PInt (a + b)), s)
  | _, _ => (Raise NotImplementedError, s)
  end.

Definition keep : node_id → pyobj → Scope → result pyobj :=
  λ _ raw _, Ok raw.

Definition run (fuel : nat) :=
  execute_without_scope graph not_registered add_node keep
                        fuel root None None None.

(** A scope that holds every leaf of the graph. *)
Definition leaves : Scope :=
  [(Lit2, PInt 2); (BoundX, PInt 5); (Lit3, PInt 3)].

End Example.

(** The graph [Negate(Add(BoundX, Literal(3)))], with a fast path
    registered for [Add] on an integer leaf and none for [Negate]. *)
Module Fast.

Definition Lit3 : node_id := 0.
Definition BoundX : node_id := 1.
Definition Sum : node_id := 2.
Definition Root : node_id := 3.

Definition graph : heap :=
  [ mkNode (Literal (PInt 3)) [PInt 3; PDataType "int8"] None "" [];
    mkNode (Operation "Table") [PStr "x"; PObj 0; PObj 1]
           (Some Example.client) "x" [BoundX];
    mkNode (Operation "Add") [PExpr (mkExpr BoundX); PExpr (mkExpr Lit3)]
           None "" [BoundX];
    mkNode (Operation "Negate") [PExpr (mkExpr Sum)] None "" [BoundX] ].

Definition root : Expr := mkExpr Root.

Definition scope : Scope := [(Lit3, PInt 3); (BoundX, PInt 5)].

Definition node : evaluator := λ n computed s _,
  match cls (get_node graph n), computed with
  | Operation "Add", [PInt a; PInt b] => (Ok (PInt (a + b)), s)
  | Operation "Negate", [PInt a] => (Ok (PInt (- a)), s)
  | _, _ => (Raise NotImplementedError, s)
  end.

Definition first : evaluator := λ n leaves s _,
  match cls (get_node graph n), leaves with
  | Operation "Add", [PInt _] => (Ok (PInt 0), s)
  | _, _ => (Raise NotImplementedError, s)
  end.

End Fast.

(** A graph whose nodes refer to each other in a cycle, with a shared
    argument: node 0 has node 1 twice, node 1 has node 0 and node 2. *)
Module Cyclic.

Definition graph : heap :=
  [ mkNode (Operation "A") [PExpr (mkExpr 1); PExpr (mkExpr 1)] None "" [];
    mkNode (Operation "B") [PExpr (mkExpr 0); PStr "by"; PExpr (mkExpr 2)]
           None "" [];
    mkNode (Literal (PInt 7)) [PInt 7; PDataType "int8"] None "" [] ].

Definition root : Expr := mkExpr 0.

End Cyclic.

(** An expression without data: [Now()]. *)
Module Unbound.

Definition graph : heap := [ mkNode (Operation "Now") [] None "" [] ].

Definition root : Expr := mkExpr 0.

End Unbound.

(** ** Vocabulary of the properties *)

(** The nodes that the arguments lead to from the root expression. *)
Inductive reachable (h : heap) (root : Expr) : node_id → Prop :=
| reach_root : reachable h root (op root)
| reach_arg n e :
    reachable h root n →
    e ∈ expr_args (get_node h n) →
    reachable h root (op e).

(** The nodes of the arena that the walk has not seen yet, and what is left
    for the loop to do: the stack, and the arguments of the unseen nodes. *)
Definition unseen (h : heap) (s : gset node_id) : list node_id :=
  filter (λ n, n ∉ s) (seq 0 (length h)).

Definition expr_arg_count (h : heap) (n : node_id) : nat :=
  length (expr_args (get_node h n)).

Definition arg_count (h : heap) (n : node_id) : nat :=
  length (args (get_node h n)).

Definition walk_measure (h : heap) (w : walk) : nat :=
  length (stack w) + sum_list_with (expr_arg_count h) (unseen h (seen w)).

(** What holds of the walk at every turn of the loop. *)
Record walk_safe (h : heap) (root : Expr) (w : walk) : Prop := {
  safe_stack : ∀ e, e ∈ stack w → reachable h root (op e);
  safe_seen : ∀ n, n ∈ seen w → reachable h root n;
  safe_visits : NoDup (visits w);
  safe_visits_seen : ∀ n, n ∈ visits w ↔ n ∈ seen w;
  safe_pushes : pushes w ≤ sum_list_with (expr_arg_count h) (visits w);
  safe_data_wf : OD.wf (data w);
  safe_data : ∀ n v,
    OD.get n (data w) = Some v →
    n ∈ seen w ∧ node_data (get_node h n) = Some (Ok v)
}.

(** What holds at every turn as long as no lookup of bound data failed. *)
Record walk_complete (h : heap) (root : Expr) (w : walk) : Prop := {
  complete_root : op root ∈ seen w ∨ root ∈ stack w;
  complete_args : ∀ n e,
    n ∈ seen w → e ∈ expr_args (get_node h n) →
    op e ∈ seen w ∨ e ∈ stack w;
  complete_data : ∀ n v,
    n ∈ seen w → node_data (get_node h n) = Some (Ok v) →
    OD.get n (data w) = Some v;
  complete_pushes :
    pushes w = sum_list_with (expr_arg_count h) (visits w)
}.

(** [hasattr(node, 'source')] and [isinstance(node, ir.Literal)]. *)
Definition has_source (nd : Node) : Prop := is_Some (source nd).

Definition is_Literal (nd : Node) : Prop := ∃ v, cls nd = Literal v.

(** Every node with a [source] that the root leads to has its name in the
    dictionary of the source. *)
Definition bindings_resolve (h : heap) (root : Expr) : Prop :=
  ∀ n x, reachable h root n → node_data (get_node h n) ≠ Some (Raise x).

(** An evaluator that leaves the scope dictionary as it found it. *)
Definition read_only (f : evaluator) : Prop :=
  ∀ n computed s c, (f n computed s c).2 = s.

(** No implementation is registered for a node with these leaf values. *)
Definition unregistered (f : evaluator) (n : node_id) (leaves : list pyobj)
  : Prop :=
  ∀ s c, f n leaves s c = (Raise NotImplementedError, s).

(** The fast path is not to be had for a node: a root table is missing
    from the scope, or nothing is registered for the values found. *)
Definition fast_path_absent (h : heap) (first : evaluator) (s : Scope)
           (n : node_id) : Prop :=
  match root_values s (get_node h n) with
  | None => True
  | Some leaves => unregistered first n leaves
  end.

(** A graph without cycles: the arguments of a node rank below it. *)
Definition acyclic (h : heap) : Prop :=
  ∃ rank : node_id → nat,
    ∀ n e, e ∈ expr_args (get_node h n) → rank (op e) < rank n.

Definition is_preload (ev : event) : bool :=
  match ev with CallPreload _ _ => true | _ => false end.

Definition preload_event (kv : node_id * pyobj) : event :=
  CallPreload kv.1 kv.2.

(** Memoization as the specification words it: a second call on the scope
    that the first call left returns the same result without invoking an
    evaluator again.  Only the calls of [execute_node] are held against it
    here (a call of [execute_first] may find nothing registered). *)
Definition second_call_is_memo (h : heap) (first node : evaluator)
           (fuel : nat) (e : Expr) (c : option Context) (s : Scope) : Prop :=
  ∀ r s1 l1,
    execute_with_scope h first node fuel e c s = Some (r, s1, l1) →
    ∃ l2,
      execute_with_scope h first node fuel e c s1 = Some (r, s1, l2)
      ∧ ∀ n computed c', CallNode n computed c' ∉ l2.

(** A property of the scope before a computation, the scope after it and
    the calls it made, which holds whenever the computation ends. *)
Definition post (P : Scope → Scope → list event → Prop) {A} (m : M A)
  : Prop :=
  ∀ s r s' l, m s = Some (r, s', l) → P s s' l.

(** What the calls in a list do to the scope, one after the other: the
    evaluators are the only ones that can change it. *)
Fixpoint replay (first node : evaluator) (l : list event) (s : Scope)
  : Scope :=
  match l with
  | [] => s
  | CallFirst n leaves c :: l' =>
      replay first node l' (first n leaves s c).2
  | CallNode n computed c :: l' =>
      replay first node l' (node n computed s c).2
  | CallPreload _ _ :: l' => replay first node l' s
  end.

(** Fallthrough as the specification words it: where the fast path is not
    to be had for the node, the result is that of a run with no fast path
    registered at all. *)
Definition fallthrough_as_unregistered (h : heap) (first node : evaluator)
           (fuel : nat) (e : Expr) (c : option Context) (s : Scope) : Prop :=
  fast_path_absent h first s (op e) →
  fst <$> execute_with_scope h first node fuel e c s
  = fst <$> execute_with_scope h not_registered node fuel e c s.

(** ** Vocabulary of the further properties *)

(** [node.source.dictionary[node.name]] raises [KeyError]. *)
Definition name_missing (nd : Node) : Prop :=
  ∃ src, source nd = Some src ∧ dictionary src !! name nd = None.

(** The reference for the order of the walk: the recursive depth-first
    walk over a list of expressions, arguments from left to right, a node
    being listed when it is met for the first time.  It returns the nodes
    in the order they were listed, and the nodes seen. *)
Fixpoint recursive_preorder (h : heap) (fuel : nat) (seen : gset node_id)
         (l : list Expr) : option (list node_id * gset node_id) :=
  match fuel with
  | 0 => None
  | S fuel' =>
      match l with
      | [] => Some ([], seen)
      | e :: rest =>
          if decide (op e ∈ seen) then recursive_preorder h fuel' seen rest
          else
            match recursive_preorder h fuel' ({[op e]} ∪ seen)
                    (expr_args (get_node h (op e))) with
            | None => None
            | Some (v1, s1) =>
                match recursive_preorder h fuel' s1 rest with
                | None => None
                | Some (v2, s2) => Some (op e :: v1 ++ v2, s2)
                end
            end
      end
  end.

(** An expression whose source lacks its name. *)
Module Missing.

Definition graph : heap :=
  [ mkNode (Operation "Table") [PStr "y"; PObj 0; PObj 1]
           (Some Example.client) "y" [0];
    mkNode (Operation "Negate") [PExpr (mkExpr 0)] None "" [0] ].

Definition root : Expr := mkExpr 1.

End Missing.

(** The context that a call of an evaluator was given. *)
Definition has_context (c : Context) (ev : event) : Prop :=
  match ev with
  | CallFirst _ _ c' | CallNode _ _ c' => c' = c
  | CallPreload _ _ => True
  end.



(** An argument that is not an expression is handed on as it is. *)
Definition passed_on (arg v : pyobj) : Prop :=
  match as_Expr arg with
  | Some _ => True
  | None => v = arg
  end.

(** A preload hook that refuses the data bound to [BoundX]. *)
Definition refuse_bound : node_id → pyobj → Scope → result pyobj :=
  λ n raw _,
    if decide (n = Example.BoundX) then Raise (OtherError "refused")
    else Ok raw.

(** * Properties *)

(** ** Ordered dictionaries *)

Module ODFacts.

Lemma get_set (k k' : node_id) (v : pyobj) (d : OD.t) :
  OD.get k (OD.set k' v d) = if decide (k = k') then Some v else OD.get k d.
Proof.
  induction d as [|[k0 v0] d IH]; simpl.
  - by destruct (decide (k = k')).
  - destruct (decide (k' = k0)) as [->|Hne]; simpl.
    + destruct (decide (k = k0)); by simplify_eq.
    + destruct (decide (k = k0)) as [->|]; simpl.
      * by rewrite decide_False by done.
      * by rewrite IH.
Qed.

Lemma get_set_eq (k : node_id) (v : pyobj) (d : OD.t) :
  OD.get k (OD.set k v d) = Some v.
Proof. by rewrite get_set, decide_True. Qed.

Lemma get_set_ne (k k' : node_id) (v : pyobj) (d : OD.t) :
  k ≠ k' → OD.get k (OD.set k' v d) = OD.get k d.
Proof. intros. by rewrite get_set, decide_False. Qed.

Lemma get_None (k : node_id) (d : OD.t) :
  OD.get k d = None ↔ k ∉ OD.keys d.
Proof.
  unfold OD.keys. induction d as [|[k0 v0] d IH]; simpl.
  - split; [intros _; apply not_elem_of_nil | done].
  - rewrite not_elem_of_cons, <- IH.
    destruct (decide (k = k0)); [split; [done | by intros []] |].
    split; [done | by intros []].
Qed.

Lemma get_Some_key (k : node_id) (v : pyobj) (d : OD.t) :
  OD.get k d = Some v → k ∈ OD.keys d.
Proof.
  intros Hget. destruct (decide (k ∈ OD.keys d)) as [|Hn]; [done|].
  apply get_None in Hn. congruence.
Qed.

Lemma get_is_Some (k : node_id) (d : OD.t) :
  is_Some (OD.get k d) ↔ k ∈ OD.keys d.
Proof.
  split.
  - intros [v Hv]. by eapply get_Some_key.
  - intros Hin. destruct (OD.get k d) eqn:E; [by eexists|].
    by apply get_None in E.
Qed.

(** Writing under a key that is there keeps the keys; a new key is
    appended. *)
Lemma keys_set (k : node_id) (v : pyobj) (d : OD.t) :
  OD.keys (OD.set k v d)
  = if decide (k ∈ OD.keys d) then OD.keys d else OD.keys d ++ [k].
Proof.
  unfold OD.keys. induction d as [|[k0 v0] d IH].
  - destruct (decide (k ∈ ([] : OD.t).*1)) as [Hin|_]; [|done].
    by apply elem_of_nil in Hin.
  - cbn [OD.set]. destruct (decide (k = k0)) as [->|Hne].
    + destruct (decide (k0 ∈ ((k0, v0) :: d).*1)) as [_|Hnin]; [done|].
      exfalso. apply Hnin. apply list_elem_of_here.
    + rewrite fmap_cons, IH. cbn [fst].
      destruct (decide (k ∈ d.*1)) as [Hin|Hnin];
        destruct (decide (k ∈ ((k0, v0) :: d).*1)) as [Hin'|Hnin'];
        try done.
      * exfalso. apply Hnin'. by apply list_elem_of_further.
      * exfalso. rewrite fmap_cons in Hin'.
        apply elem_of_cons in Hin' as [?|?]; done.
Qed.

Lemma set_new (k : node_id) (v : pyobj) (d : OD.t) :
  k ∉ OD.keys d → OD.set k v d = d ++ [(k, v)].
Proof.
  unfold OD.keys. induction d as [|[k0 v0] d IH]; simpl; [done|].
  rewrite not_elem_of_cons. intros [Hne Hnin].
  rewrite decide_False by done. by rewrite IH.
Qed.

Lemma wf_empty : OD.wf OD.empty.
Proof. apply NoDup_nil_2. Qed.

Lemma wf_set (k : node_id) (v : pyobj) (d : OD.t) :
  OD.wf d → OD.wf (OD.set k v d).
Proof.
  unfold OD.wf. rewrite keys_set. intros Hd.
  destruct (decide (k ∈ OD.keys d)); [done|].
  apply NoDup_app. split_and!; [done | | apply NoDup_singleton].
  intros x Hx Hx'. apply list_elem_of_singleton in Hx'. by subst.
Qed.

Lemma wf_update (d : OD.t) (other : list (node_id * pyobj)) :
  OD.wf d → OD.wf (OD.update d other).
Proof.
  unfold OD.update. revert d.
  induction other as [|[k v] o IH]; intros d Hd; simpl; [done|].
  by apply IH, wf_set.
Qed.

(** [update] writes the items of a dictionary over the ones it has. *)
Lemma get_update (k : node_id) (d other : OD.t) :
  OD.wf other →
  OD.get k (OD.update d other)
  = match OD.get k other with Some v => Some v | None => OD.get k d end.
Proof.
  unfold OD.update, OD.wf, OD.keys. revert d.
  induction other as [|[k0 v0] o IH]; intros d Hwf; simpl; [done|].
  apply NoDup_cons in Hwf as [Hk0 Hwf]. cbn [fst] in Hk0.
  rewrite IH by done. cbn [fst snd].
  destruct (decide (k = k0)) as [->|Hne].
  - apply get_None in Hk0. by rewrite Hk0, get_set_eq.
  - by rewrite get_set_ne.
Qed.

Lemma wf_merge (dicts : list OD.t) : OD.wf (toolz_merge dicts).
Proof.
  unfold toolz_merge. generalize wf_empty. generalize OD.empty.
  induction dicts as [|d ds IH]; intros acc Hacc; simpl; [done|].
  by apply IH, wf_update.
Qed.

Lemma wf_normalize_params (params : list (param_key * pyobj)) :
  OD.wf (normalize_params params).
Proof.
  unfold normalize_params. generalize wf_empty. generalize OD.empty.
  induction params as [|[k v] ps IH]; intros acc Hacc; simpl; [done|].
  by apply IH, wf_set.
Qed.

(** The position of a key that is there. *)
Lemma set_lookup (i : nat) (k : node_id) (v v' : pyobj) (d : OD.t) :
  OD.wf d → d !! i = Some (k, v) →
  OD.set k v' d = <[i := (k, v')]> d.
Proof.
  unfold OD.wf, OD.keys. revert i.
  induction d as [|[k0 v0] d IH]; intros i Hwf Hi; [done|].
  apply NoDup_cons in Hwf as [Hk0 Hwf]. destruct i as [|i]; simpl in *.
  - simplify_eq. by rewrite decide_True.
  - rewrite decide_False.
    + f_equal. by apply IH.
    + intros ->. apply Hk0.
      apply list_elem_of_lookup_2 in Hi.
      by apply (list_elem_of_fmap_2 fst) in Hi.
Qed.

End ODFacts.

(** ** The walk of [find_data] *)

Section WalkFacts.

Variable h : heap.
Variable root : Expr.

Lemma pop_None {A} (l : list A) : pop l = None → l = [].
Proof.
  unfold pop. destruct (reverse l) eqn:E; [|done].
  intros _. by rewrite <- (reverse_involutive l), E.
Qed.

Lemma pop_Some {A} (l l' : list A) (x : A) :
  pop l = Some (x, l') → l = l' ++ [x].
Proof.
  unfold pop. destruct (reverse l) eqn:E; [done|].
  intros [= -> <-]. by rewrite <- (reverse_involutive l), E, reverse_cons.
Qed.

Lemma omap_reverse {A B} (f : A → option B) (l : list A) :
  omap f (reverse l) = reverse (omap f l).
Proof.
  induction l as [|a l IH]; [done|].
  rewrite reverse_cons, omap_app, IH. simpl.
  destruct (f a); simpl.
  - by rewrite reverse_cons.
  - by rewrite app_nil_r.
Qed.

Lemma pushed_args_reverse (nd : Node) :
  pushed_args nd = reverse (expr_args nd).
Proof. apply omap_reverse. Qed.

Lemma length_pushed_args (n : node_id) :
  length (pushed_args (get_node h n)) = expr_arg_count h n.
Proof.
  unfold expr_arg_count. by rewrite pushed_args_reverse, length_reverse.
Qed.

Lemma elem_of_pushed_args (e : Expr) (nd : Node) :
  e ∈ pushed_args nd ↔ e ∈ expr_args nd.
Proof. by rewrite pushed_args_reverse, elem_of_reverse. Qed.

Lemma expr_arg_count_le (n : node_id) : expr_arg_count h n ≤ arg_count h n.
Proof.
  unfold expr_arg_count, arg_count, expr_args.
  induction (args (get_node h n)) as [|a l IH]; csimpl; [done|].
  destruct (as_Expr a); csimpl; lia.
Qed.

Lemma expr_arg_count_outside (n : node_id) :
  length h ≤ n → expr_arg_count h n = 0.
Proof.
  intros Hn. unfold expr_arg_count, get_node.
  by rewrite (lookup_ge_None_2 h n).
Qed.

(** Seeing a node takes its arguments out of what is left to push. *)
Lemma sum_unseen_visit (f : node_id → nat) (s : gset node_id)
      (n : node_id) (l : list node_id) :
  NoDup l → n ∉ s →
  sum_list_with f (filter (λ k, k ∉ s) l)
  = sum_list_with f (filter (λ k, k ∉ {[n]} ∪ s) l)
    + (if decide (n ∈ l) then f n else 0).
Proof.
  intros Hl Hn. induction Hl as [|k l Hk Hl IH].
  - by rewrite decide_False by apply not_elem_of_nil.
  - rewrite !filter_cons. destruct (decide (k = n)) as [->|Hne].
    + rewrite decide_True by done.
      rewrite (decide_False (P := n ∉ {[n]} ∪ s)) by set_solver.
      rewrite (decide_True (P := n ∈ n :: l)) by apply list_elem_of_here.
      rewrite decide_False in IH by done. simpl. lia.
    + destruct (decide (n ∈ l)) as [Hin|Hnin].
      * rewrite (decide_True (P := n ∈ k :: l))
          by by apply list_elem_of_further.
        destruct (decide (k ∉ s)).
        -- rewrite (decide_True (P := k ∉ {[n]} ∪ s))
             by by rewrite not_elem_of_union, elem_of_singleton.
           simpl. lia.
        -- rewrite (decide_False (P := k ∉ {[n]} ∪ s)) by set_solver.
           done.
      * rewrite (decide_False (P := n ∈ k :: l)).
        2:{ rewrite not_elem_of_cons. done. }
        destruct (decide (k ∉ s)).
        -- rewrite (decide_True (P := k ∉ {[n]} ∪ s))
             by by rewrite not_elem_of_union, elem_of_singleton.
           simpl. lia.
        -- rewrite (decide_False (P := k ∉ {[n]} ∪ s)) by set_solver.
           done.
Qed.

Lemma unseen_visit (s : gset node_id) (n : node_id) :
  n ∉ s →
  sum_list_with (expr_arg_count h) (unseen h s)
  = sum_list_with (expr_arg_count h) (unseen h ({[n]} ∪ s))
    + expr_arg_count h n.
Proof.
  intros Hn. unfold unseen.
  rewrite (sum_unseen_visit _ s n) by (apply NoDup_seq || done).
  f_equal. destruct (decide (n ∈ seq 0 (length h))) as [|Hout]; [done|].
  rewrite expr_arg_count_outside; [done|].
  rewrite elem_of_seq in Hout. lia.
Qed.

Lemma sum_list_with_submseteq {A} (f : A → nat) (l k : list A) :
  l ⊆+ k → sum_list_with f l ≤ sum_list_with f k.
Proof. induction 1; simpl; lia. Qed.

Lemma filter_all {A} (P : A → Prop) `{!∀ x, Decision (P x)} (l : list A) :
  (∀ x, x ∈ l → P x) → filter P l = l.
Proof.
  induction l as [|a l IH]; intros Hall; [done|].
  rewrite filter_cons_True by (apply Hall, list_elem_of_here).
  f_equal. apply IH. intros x Hx. by apply Hall, list_elem_of_further.
Qed.

Lemma sum_arena (f : Node → nat) (pre suf : list Node) :
  sum_list_with (λ n, f (get_node (pre ++ suf) n))
                (seq (length pre) (length suf))
  = sum_list_with f suf.
Proof.
  revert pre. induction suf as [|x suf IH]; intros pre; [done|].
  cbn [length seq sum_list_with]. f_equal.
  - unfold get_node. by rewrite list_lookup_middle.
  - specialize (IH (pre ++ [x])).
    rewrite <- app_assoc, length_app in IH. cbn [length app] in IH.
    by rewrite Nat.add_1_r in IH.
Qed.

Lemma measure_init : walk_measure h (walk_init root) < walk_fuel h.
Proof.
  unfold walk_measure, walk_fuel, walk_init, unseen. cbn [stack seen].
  rewrite filter_all by (intros; apply not_elem_of_empty).
  pose proof (sum_arena (λ nd, length (expr_args nd)) [] h) as E.
  cbn [app length] in E. unfold expr_arg_count. rewrite E. cbn [length].
  lia.
Qed.

Lemma safe_init : walk_safe h root (walk_init root).
Proof.
  split; cbn [walk_init stack seen data visits pushes].
  - intros e ->%list_elem_of_singleton. constructor.
  - intros n Hn. by apply not_elem_of_empty in Hn.
  - apply NoDup_nil_2.
  - intros n. split; intros Hn.
    + by apply elem_of_nil in Hn.
    + by apply not_elem_of_empty in Hn.
  - done.
  - apply ODFacts.wf_empty.
  - done.
Qed.

Lemma complete_init : walk_complete h root (walk_init root).
Proof.
  split; cbn [walk_init stack seen data visits pushes].
  - right. apply list_elem_of_here.
  - intros n e Hn. by apply not_elem_of_empty in Hn.
  - intros n v Hn. by apply not_elem_of_empty in Hn.
  - done.
Qed.

(** A node that was seen before is dropped. *)
Lemma safe_skip (w : walk) (e : Expr) (st : list Expr) :
  walk_safe h root w → stack w = st ++ [e] →
  walk_safe h root (mkWalk st (seen w) (data w) (visits w) (pushes w)).
Proof.
  intros [safe_stack0 safe_seen0 safe_visits0 safe_visits_seen0 safe_pushes0
            safe_data_wf0 safe_data0] Hst.
  split; cbn [stack seen data visits pushes]; try done.
  intros e' He'. apply safe_stack0. rewrite Hst, elem_of_app. by left.
Qed.

Lemma complete_skip (w : walk) (e : Expr) (st : list Expr) :
  walk_complete h root w → stack w = st ++ [e] → op e ∈ seen w →
  walk_complete h root (mkWalk st (seen w) (data w) (visits w) (pushes w)).
Proof.
  intros [complete_root0 complete_args0 complete_data0 complete_pushes0]
    Hst Hseen.
  split; cbn [stack seen data visits pushes]; try done.
  - destruct complete_root0 as [|Hin]; [by left|].
    rewrite Hst, elem_of_app, list_elem_of_singleton in Hin.
    destruct Hin as [?| ->]; [by right | by left].
  - intros n e' Hn He'.
    destruct (complete_args0 n e' Hn He') as [|Hin]; [by left|].
    rewrite Hst, elem_of_app, list_elem_of_singleton in Hin.
    destruct Hin as [?| ->]; [by right | by left].
Qed.

Lemma measure_skip (w : walk) (e : Expr) (st : list Expr) :
  stack w = st ++ [e] →
  S (walk_measure h (mkWalk st (seen w) (data w) (visits w) (pushes w)))
  = walk_measure h w.
Proof.
  intros Hst. unfold walk_measure. cbn [stack seen].
  rewrite Hst, length_app. cbn [length]. lia.
Qed.

(** A new node is marked, recorded when it has data, and its arguments
    are pushed. *)
Lemma safe_visit (w : walk) (e : Expr) (st new : list Expr) (d : OD.t)
      (p : nat) :
  walk_safe h root w → stack w = st ++ [e] → op e ∉ seen w →
  (∀ e', e' ∈ new → e' ∈ expr_args (get_node h (op e))) →
  p ≤ pushes w + expr_arg_count h (op e) →
  OD.wf d →
  (∀ n v, OD.get n d = Some v →
          OD.get n (data w) = Some v
          ∨ (n = op e ∧ node_data (get_node h n) = Some (Ok v))) →
  walk_safe h root
    (mkWalk (st ++ new) ({[op e]} ∪ seen w) d (visits w ++ [op e]) p).
Proof.
  intros [safe_stack0 safe_seen0 safe_visits0 safe_visits_seen0 safe_pushes0
            safe_data_wf0 safe_data0]
    Hst Hnew Hargs Hp Hwf Hd.
  assert (reachable h root (op e)) as Hreach.
  { apply safe_stack0. rewrite Hst, elem_of_app, list_elem_of_singleton.
    by right. }
  split; cbn [stack seen data visits pushes].
  - intros e' [He'|He']%elem_of_app.
    + apply safe_stack0. rewrite Hst, elem_of_app. by left.
    + econstructor; [exact Hreach | by apply Hargs].
  - intros n [->%elem_of_singleton|Hn]%elem_of_union; [done|].
    by apply safe_seen0.
  - apply NoDup_app. split_and!; [done | | apply NoDup_singleton].
    intros n Hn ->%list_elem_of_singleton.
    by apply Hnew, safe_visits_seen0.
  - intros n.
    rewrite elem_of_app, list_elem_of_singleton, elem_of_union,
      elem_of_singleton, safe_visits_seen0.
    tauto.
  - rewrite sum_list_with_app. cbn [sum_list_with]. lia.
  - done.
  - intros n v Hget. destruct (Hd n v Hget) as [Hold|[ -> Hnd]].
    + destruct (safe_data0 n v Hold) as [Hn Hnd].
      split; [|done]. apply elem_of_union. by right.
    + split; [|done]. apply elem_of_union. left.
      by apply elem_of_singleton.
Qed.

Lemma complete_visit (w : walk) (e : Expr) (st : list Expr) (d : OD.t) :
  walk_complete h root w → stack w = st ++ [e] → op e ∉ seen w →
  (∀ n v, OD.get n (data w) = Some v → OD.get n d = Some v) →
  (∀ v, node_data (get_node h (op e)) = Some (Ok v) →
        OD.get (op e) d = Some v) →
  walk_complete h root
    (mkWalk (st ++ pushed_args (get_node h (op e)))
            ({[op e]} ∪ seen w) d (visits w ++ [op e])
            (pushes w + length (pushed_args (get_node h (op e))))).
Proof.
  intros [complete_root0 complete_args0 complete_data0 complete_pushes0]
    Hst Hnew Hold Hrec.
  split; cbn [stack seen data visits pushes].
  - destruct complete_root0 as [Hin|Hin].
    + left. apply elem_of_union. by right.
    + rewrite Hst, elem_of_app, list_elem_of_singleton in Hin.
      destruct Hin as [Hin| ->].
      * right. apply elem_of_app. by left.
      * left. apply elem_of_union. left. by apply elem_of_singleton.
  - intros n e' [->%elem_of_singleton|Hn]%elem_of_union He'.
    + right. apply elem_of_app. right. by apply elem_of_pushed_args.
    + destruct (complete_args0 n e' Hn He') as [Hin|Hin].
      * left. apply elem_of_union. by right.
      * rewrite Hst, elem_of_app, list_elem_of_singleton in Hin.
        destruct Hin as [Hin| ->].
        -- right. apply elem_of_app. by left.
        -- left. apply elem_of_union. left. by apply elem_of_singleton.
  - intros n v [->%elem_of_singleton|Hn]%elem_of_union Hnd.
    + by apply Hrec.
    + by apply Hold, complete_data0.
  - rewrite sum_list_with_app, length_pushed_args. cbn [sum_list_with].
    lia.
Qed.

Lemma measure_visit (w : walk) (e : Expr) (st : list Expr) (d : OD.t)
      (vs : list node_id) (p : nat) :
  stack w = st ++ [e] → op e ∉ seen w →
  S (walk_measure h
       (mkWalk (st ++ pushed_args (get_node h (op e)))
               ({[op e]} ∪ seen w) d vs p))
  = walk_measure h w.
Proof.
  intros Hst Hnew. unfold walk_measure. cbn [stack seen].
  rewrite (unseen_visit (seen w) (op e)) by done.
  rewrite Hst, !length_app, length_pushed_args. cbn [length]. lia.
Qed.

(** The loop ends within the fuel that the measure asks for, keeps the
    invariant, and ends normally with an empty stack unless a lookup of
    bound data failed. *)
Lemma find_data_loop_spec (fuel : nat) (w : walk) :
  walk_safe h root w → walk_measure h w < fuel →
  ∃ r w',
    find_data_loop h fuel w = (Some r, w')
    ∧ walk_safe h root w'
    ∧ (bindings_resolve h root → r = Ok tt)
    ∧ (r = Ok tt →
       stack w' = [] ∧ (walk_complete h root w → walk_complete h root w')).
Proof.
  revert w. induction fuel as [|fuel IH]; intros w Hsafe Hfuel; [lia|].
  cbn [find_data_loop]. destruct (pop (stack w)) as [[e st]|] eqn:Hpop.
  - apply pop_Some in Hpop.
    assert (reachable h root (op e)) as Hreach.
    { apply (safe_stack _ _ _ Hsafe).
      rewrite Hpop, elem_of_app, list_elem_of_singleton. by right. }
    destruct (decide (op e ∈ seen w)) as [Hseen|Hnew].
    + destruct (IH (mkWalk st (seen w) (data w) (visits w) (pushes w)))
        as (r & w' & Hrun & Hsafe' & Hres & Hok).
      { by eapply safe_skip. }
      { pose proof (measure_skip w e st Hpop). lia. }
      exists r, w'. split_and!; [done..|].
      intros Hr. destruct (Hok Hr) as [Hst Hc]. split; [done|].
      intros Hcomplete. by eapply Hc, complete_skip.
    + destruct (node_data (get_node h (op e))) as [[v|x]|] eqn:Hnd.
      * destruct (IH (mkWalk (st ++ pushed_args (get_node h (op e)))
                             ({[op e]} ∪ seen w)
                             (OD.set (op e) v (data w))
                             (visits w ++ [op e])
                             (pushes w
                              + length (pushed_args (get_node h (op e))))))
          as (r & w' & Hrun & Hsafe' & Hres & Hok).
        { apply (safe_visit w e st); try done.
          - intros e'. by rewrite elem_of_pushed_args.
          - by rewrite length_pushed_args.
          - apply ODFacts.wf_set, (safe_data_wf _ _ _ Hsafe).
          - intros n v'. rewrite ODFacts.get_set.
            destruct (decide (n = op e)) as [->|]; [|by left].
            intros [= ->]. by right. }
        { pose proof (measure_visit w e st (OD.set (op e) v (data w))
                        (visits w ++ [op e])
                        (pushes w
                         + length (pushed_args (get_node h (op e))))
                        Hpop Hnew).
          lia. }
        exists r, w'. split_and!; [done..|].
        intros Hr. destruct (Hok Hr) as [Hst Hc]. split; [done|].
        intros Hcomplete. apply Hc, complete_visit; try done.
        -- intros n v' Hget. rewrite ODFacts.get_set_ne; [done|].
           intros ->. by destruct (safe_data _ _ _ Hsafe _ _ Hget).
        -- intros v' Hv'. rewrite Hnd in Hv'. injection Hv' as <-.
           apply ODFacts.get_set_eq.
      * eexists (Raise x), _. split_and!; [done | | |done].
        -- rewrite <- (app_nil_r st).
           apply (safe_visit w e st); try done.
           ++ intros e' He'. by apply elem_of_nil in He'.
           ++ lia.
           ++ apply (safe_data_wf _ _ _ Hsafe).
           ++ intros n v' Hget. by left.
        -- intros Hres. by destruct (Hres (op e) x Hreach).
      * destruct (IH (mkWalk (st ++ pushed_args (get_node h (op e)))
                             ({[op e]} ∪ seen w) (data w)
                             (visits w ++ [op e])
                             (pushes w
                              + length (pushed_args (get_node h (op e))))))
          as (r & w' & Hrun & Hsafe' & Hres & Hok).
        { apply (safe_visit w e st); try done.
          - intros e'. by rewrite elem_of_pushed_args.
          - by rewrite length_pushed_args.
          - apply (safe_data_wf _ _ _ Hsafe).
          - intros n v' Hget. by left. }
        { pose proof (measure_visit w e st (data w) (visits w ++ [op e])
                        (pushes w
                         + length (pushed_args (get_node h (op e))))
                        Hpop Hnew).
          lia. }
        exists r, w'. split_and!; [done..|].
        intros Hr. destruct (Hok Hr) as [Hst Hc]. split; [done|].
        intros Hcomplete. apply Hc, complete_visit; try done.
        intros v'. by rewrite Hnd.
  - apply pop_None in Hpop. exists (Ok tt), w. by split_and!.
Qed.

Lemma find_data_run_spec :
  ∃ r w,
    find_data_run h root = (Some r, w)
    ∧ walk_safe h root w
    ∧ (bindings_resolve h root → r = Ok tt)
    ∧ (r = Ok tt → stack w = [] ∧ walk_complete h root w).
Proof.
  destruct (find_data_loop_spec (walk_fuel h) (walk_init root))
    as (r & w & Hrun & Hsafe & Hres & Hok);
    [apply safe_init | apply measure_init |].
  exists r, w. split_and!; [done..|].
  intros Hr. destruct (Hok Hr) as [Hst Hc]. split; [done|].
  apply Hc, complete_init.
Qed.

(** When the stack is empty, what was seen is what can be reached. *)
Lemma complete_reachable (w : walk) (n : node_id) :
  walk_complete h root w → stack w = [] →
  reachable h root n → n ∈ seen w.
Proof.
  intros Hc Hst. induction 1 as [|n e Hn IH He].
  - destruct (complete_root _ _ _ Hc) as [|Hin]; [done|].
    rewrite Hst in Hin. by apply elem_of_nil in Hin.
  - destruct (complete_args _ _ _ Hc n e IH He) as [|Hin]; [done|].
    rewrite Hst in Hin. by apply elem_of_nil in Hin.
Qed.

Lemma find_data_run_Ok (w : walk) :
  find_data_run h root = (Some (Ok tt), w) →
  find_data h root = Some (Ok (data w)).
Proof. unfold find_data. by intros ->. Qed.

Lemma find_data_Ok_inv (d : OD.t) :
  find_data h root = Some (Ok d) →
  ∃ w, find_data_run h root = (Some (Ok tt), w) ∧ data w = d.
Proof.
  unfold find_data.
  destruct (find_data_run h root) as [[[[]|x]|] w]; intros [= <-].
  by exists w.
Qed.

(** The walk never runs out of the fuel it is given. *)
Lemma find_data_total : is_Some (find_data h root).
Proof.
  destruct find_data_run_spec as (r & w & Hrun & _).
  unfold find_data. rewrite Hrun. destruct r as [[]|x]; by eexists.
Qed.

Lemma find_data_wf (d : OD.t) :
  find_data h root = Some (Ok d) → OD.wf d.
Proof.
  intros (w & Hrun & <-)%find_data_Ok_inv.
  destruct find_data_run_spec as (r & w' & Hrun' & Hsafe & _).
  rewrite Hrun in Hrun'. injection Hrun' as _ <-.
  apply (safe_data_wf _ _ _ Hsafe).
Qed.

(** The mapping that [find_data] returns: the reachable nodes that have
    data, each with its data. *)
Lemma find_data_get (d : OD.t) (n : node_id) (v : pyobj) :
  find_data h root = Some (Ok d) →
  OD.get n d = Some v
  ↔ reachable h root n ∧ node_data (get_node h n) = Some (Ok v).
Proof.
  intros (w & Hrun & <-)%find_data_Ok_inv.
  destruct find_data_run_spec as (r & w' & Hrun' & Hsafe & _ & Hok).
  rewrite Hrun in Hrun'. injection Hrun' as <- <-.
  destruct (Hok eq_refl) as [Hst Hc]. split.
  - intros Hget. destruct (safe_data _ _ _ Hsafe _ _ Hget) as [Hn Hnd].
    split; [|done]. by apply (safe_seen _ _ _ Hsafe).
  - intros [Hn Hnd]. apply (complete_data _ _ _ Hc); [|done].
    by apply complete_reachable.
Qed.

End WalkFacts.

(** ** [find_data]: what it visits, what it returns, and that it ends *)

Lemma node_data_is_Some (nd : Node) :
  is_Some (node_data nd) ↔ has_source nd ∨ is_Literal nd.
Proof.
  unfold node_data, has_source, is_Literal.
  destruct (source nd) as [src|].
  - split; [intros _; left; by eexists | intros _; by eexists].
  - destruct (cls nd) as [v|k].
    + split; [intros _; right; by eexists | intros _; by eexists].
    + split; [by intros [? [=]] |].
      intros [[? [=]]|[? [=]]].
Qed.

Lemma example_resolves : bindings_resolve Example.graph Example.root.
Proof.
  intros n x _. unfold get_node.
  do 5 (destruct n as [|n]; [vm_compute; congruence|]).
  vm_compute. congruence.
Qed.

Lemma cyclic_reachable (n : node_id) :
  reachable Cyclic.graph Cyclic.root n → n ∈ [0; 1; 2].
Proof.
  induction 1 as [|n e _ IH He].
  - apply list_elem_of_here.
  - apply list_elem_of_In in IH. apply list_elem_of_In.
    destruct IH as [<-|[<-|[<-|[]]]]; vm_compute in He;
      apply list_elem_of_In in He; simpl in He; simpl;
      intuition (subst; simpl; auto).
Qed.

Lemma find_data_visits_once_aux (h : heap) (root : Expr) :
  bindings_resolve h root →
  ∃ w,
    find_data h root = Some (Ok (data w))
    ∧ ∀ n v, OD.get n (data w) = Some v
             ↔ reachable h root n ∧ node_data (get_node h n) = Some (Ok v).
Proof.
  intros Hres.
  destruct (find_data_run_spec h root) as (r & w & Hrun & _ & Hr & _).
  specialize (Hr Hres). subst r.
  pose proof (find_data_run_Ok h root w Hrun) as Hfd.
  exists w. split; [done|]. intros n v. by apply find_data_get.
Qed.

(** C6.  When the bound data of the nodes that the root leads to can be
    looked up, [find_data] returns a mapping; it has taken every node that
    the root leads to exactly once (the order of [seen.add] has no
    repetition and holds exactly those nodes), whatever the number of
    arguments that refer to the node; and the keys of the mapping are
    exactly the reachable nodes that have a [source] or are a [Literal],
    each node with its own data. *)
Theorem find_data_visits_once (h : heap) (root : Expr) :
  bindings_resolve h root →
  ∃ w,
    find_data_run h root = (Some (Ok tt), w)
    ∧ find_data h root = Some (Ok (data w))
    ∧ NoDup (visits w)
    ∧ (∀ n, n ∈ visits w ↔ reachable h root n)
    ∧ NoDup (OD.keys (data w))
    ∧ (∀ n, n ∈ OD.keys (data w)
            ↔ reachable h root n
              ∧ (has_source (get_node h n) ∨ is_Literal (get_node h n)))
    ∧ (∀ n v, OD.get n (data w) = Some v
              ↔ reachable h root n
                ∧ node_data (get_node h n) = Some (Ok v)).
Proof.
  intros Hres.
  destruct (find_data_run_spec h root) as (r & w & Hrun & Hsafe & Hr & Hok).
  specialize (Hr Hres). subst r. destruct (Hok eq_refl) as [Hst Hc].
  pose proof (find_data_run_Ok h root w Hrun) as Hfd.
  exists w. split_and!; try done.
  - apply (safe_visits _ _ _ Hsafe).
  - intros n. rewrite (safe_visits_seen _ _ _ Hsafe). split.
    + apply (safe_seen _ _ _ Hsafe).
    + by apply complete_reachable.
  - apply (safe_data_wf _ _ _ Hsafe).
  - intros n. rewrite <- ODFacts.get_is_Some, <- node_data_is_Some. split.
    + intros [v Hv]. apply (find_data_get h root _ n v Hfd) in Hv as [? Hnd].
      split; [done|]. by eexists.
    + intros [Hn [[v|x] Hnd]].
      * exists v. by apply (find_data_get h root _ n v Hfd).
      * by destruct (Hres n x Hn).
  - intros n v. by apply find_data_get.
Qed.

Lemma find_data_visits_once_witness :
  ∃ w,
    find_data_run Example.graph Example.root = (Some (Ok tt), w)
    ∧ visits w = [Example.Root; Example.Lit2; Example.Inner;
                  Example.BoundX; Example.Lit3].
Proof.
  destruct (find_data_visits_once Example.graph Example.root
              example_resolves) as (w & Hrun & _).
  exists w. split; [exact Hrun|].
  vm_compute in Hrun. by injection Hrun as <-.
Defined.

(** C10.  [find_data] ends on every arena of nodes, shared arguments and
    cycles included: the loop needs no more turns than [walk_fuel] allows.
    No node is taken by [seen.add] twice, what is pushed is pushed for the
    nodes taken, once each, and so the number of pushes is at most the sum
    of the argument counts over any list without repetition that holds the
    nodes the root leads to. *)
Theorem find_data_terminates (h : heap) (root : Expr) (R : list node_id) :
  NoDup R →
  (∀ n, reachable h root n → n ∈ R) →
  ∃ r w,
    find_data_run h root = (Some r, w)
    ∧ NoDup (visits w)
    ∧ (∀ n, n ∈ visits w → reachable h root n)
    ∧ pushes w ≤ sum_list_with (expr_arg_count h) (visits w)
    ∧ pushes w ≤ sum_list_with (arg_count h) R.
Proof.
  intros HR Hall.
  destruct (find_data_run_spec h root) as (r & w & Hrun & Hsafe & _).
  exists r, w.
  assert (∀ n, n ∈ visits w → reachable h root n) as Hvis.
  { intros n Hn. apply (safe_seen _ _ _ Hsafe).
    by apply (safe_visits_seen _ _ _ Hsafe). }
  split_and!; try done.
  - apply (safe_visits _ _ _ Hsafe).
  - apply (safe_pushes _ _ _ Hsafe).
  - etrans; [apply (safe_pushes _ _ _ Hsafe)|].
    etrans; [apply (sum_list_with_submseteq _ (visits w) R)|].
    + apply NoDup_submseteq; [apply (safe_visits _ _ _ Hsafe)|].
      intros n Hn. by apply Hall, Hvis.
    + clear. induction R as [|n R IH]; simpl; [done|].
      pose proof (expr_arg_count_le h n). lia.
Qed.

Lemma find_data_terminates_witness :
  ∃ r w,
    find_data_run Cyclic.graph Cyclic.root = (Some r, w)
    ∧ pushes w ≤ 7.
Proof.
  destruct (find_data_terminates Cyclic.graph Cyclic.root [0; 1; 2])
    as (r & w & Hrun & _ & _ & _ & Hp).
  - apply (bool_decide_unpack _). vm_compute. exact I.
  - apply cyclic_reachable.
  - exists r, w. split; [exact Hrun | exact Hp].
Defined.

(** ** The computations of the engine *)

Section MonadFacts.

Context {A B : Type}.

Lemma bind_Some (m : M A) (f : A → M B) (s s' : Scope) (r : result B)
      (l : list event) :
  bind m f s = Some (r, s', l) →
  (∃ x, r = Raise x ∧ m s = Some (Raise x, s', l))
  ∨ (∃ a s1 l1 l2,
        m s = Some (Ok a, s1, l1) ∧ f a s1 = Some (r, s', l2)
        ∧ l = l1 ++ l2).
Proof.
  unfold bind. destruct (m s) as [[[[a|x] s1] l1]|]; [| |done].
  - destruct (f a s1) as [[[r2 s2] l2]|] eqn:Hf; [|done].
    intros [= <- <- <-]. right. by exists a, s1, l1, l2.
  - intros [= <- <- <-]. left. by exists x.
Qed.

Lemma bind_Ok (m : M A) (f : A → M B) (s s1 : Scope) (a : A)
      (l1 : list event) :
  m s = Some (Ok a, s1, l1) →
  bind m f s
  = match f a s1 with
    | None => None
    | Some (r, s2, l2) => Some (r, s2, l1 ++ l2)
    end.
Proof. unfold bind. by intros ->. Qed.

Lemma bind_mono (m m' : M A) (f f' : A → M B) (s : Scope)
      (x : result B * Scope * list event) :
  (∀ y, m s = Some y → m' s = Some y) →
  (∀ a s1 y, f a s1 = Some y → f' a s1 = Some y) →
  bind m f s = Some x → bind m' f' s = Some x.
Proof.
  intros Hm Hf. unfold bind.
  destruct (m s) as [[[[a|e] s1] l1]|] eqn:E; [| |done].
  - rewrite (Hm _ eq_refl).
    destruct (f a s1) as [[[r2 s2] l2]|] eqn:E2; [|done].
    by rewrite (Hf _ _ _ E2).
  - by rewrite (Hm _ eq_refl).
Qed.

Lemma bind_ext (m m' : M A) (f f' : A → M B) (s : Scope) :
  m s = m' s → (∀ a s1, f a s1 = f' a s1) → bind m f s = bind m' f' s.
Proof.
  intros Hm Hf. unfold bind. rewrite Hm.
  destruct (m' s) as [[[[a|e] s1] l1]|]; [|done..]. by rewrite Hf.
Qed.

Lemma bind_total (m : M A) (f : A → M B) (s : Scope) :
  is_Some (m s) → (∀ a s1, is_Some (f a s1)) → is_Some (bind m f s).
Proof.
  intros [[[[a|e] s1] l1] E] Hf; unfold bind; rewrite E; [|by eexists].
  destruct (Hf a s1) as [[[r2 s2] l2] E2]. rewrite E2. by eexists.
Qed.

End MonadFacts.

Lemma or_else_Some {A} (m k : M A) (s s' : Scope) (r : result A)
      (l : list event) :
  or_else_if_not_implemented m k s = Some (r, s', l) →
  (m s = Some (r, s', l) ∧ r ≠ Raise NotImplementedError)
  ∨ (∃ s1 l1 l2,
        m s = Some (Raise NotImplementedError, s1, l1)
        ∧ k s1 = Some (r, s', l2) ∧ l = l1 ++ l2).
Proof.
  unfold or_else_if_not_implemented.
  destruct (m s) as [[[[a|x] s1] l1]|]; [| |done].
  - intros [= <- <- <-]. by left.
  - destruct x; try (intros [= <- <- <-]; by left).
    destruct (k s1) as [[[r2 s2] l2]|] eqn:Hk; [|done].
    intros [= <- <- <-]. right. by exists s1, l1, l2.
Qed.

Section EngineFacts.

Variable h : heap.
Variables first node : evaluator.

Abbreviation exec := (execute_with_scope h first node).

Lemma exec_unfold (fuel : nat) (e : Expr) (c : option Context)
      (s : Scope) :
  exec (S fuel) e c s
  = match OD.get (op e) s with
    | Some v => Some (Ok v, s, [])
    | None =>
        let c' := default Summarize c in
        let general :=
          general_case h node (λ arg, exec fuel arg (Some c')) (op e) c' in
        match root_values s (get_node h (op e)) with
        | None => general s
        | Some leaves =>
            or_else_if_not_implemented
              (call_first first (op e) leaves c') general s
        end
    end.
Proof. reflexivity. Qed.

(** A node that is a key of the scope: the stored value, and nothing
    else happens. *)
Lemma exec_hit (fuel : nat) (e : Expr) (c : option Context) (s : Scope)
      (v : pyobj) :
  OD.get (op e) s = Some v → exec fuel e c s = Some (Ok v, s, []).
Proof. intros Hget. destruct fuel; simpl; by rewrite Hget. Qed.

Lemma exec_zero (e : Expr) (c : option Context) (s : Scope) :
  OD.get (op e) s = None → exec 0 e c s = None.
Proof. intros Hget. simpl. by rewrite Hget. Qed.

(** *** What holds from the scope before to the scope after *)

Section Post.

Variable P : Scope → Scope → list event → Prop.
Hypothesis P_refl : ∀ s, P s s [].
Hypothesis P_trans : ∀ s1 s2 s3 l1 l2,
  P s1 s2 l1 → P s2 s3 l2 → P s1 s3 (l1 ++ l2).
Hypothesis P_first : ∀ n leaves c s,
  P s (first n leaves s c).2 [CallFirst n leaves c].
Hypothesis P_node : ∀ n computed c s,
  P s (node n computed s c).2 [CallNode n computed c].

Lemma post_ret {A} (a : A) : post P (ret a).
Proof using P_refl. intros s r s' l [= <- <- <-]. apply P_refl. Qed.

Lemma post_bind {A B} (m : M A) (f : A → M B) :
  post P m → (∀ a, post P (f a)) → post P (bind m f).
Proof using P_trans.
  intros Hm Hf s r s' l
    [(x & -> & E)|(a & s1 & l1 & l2 & E & E2 & ->)]%bind_Some.
  - by eapply Hm.
  - eapply P_trans; [by eapply Hm | by eapply Hf].
Qed.

Lemma post_call_first (n : node_id) (leaves : list pyobj) (c : Context) :
  post P (call_first first n leaves c).
Proof using P_first.
  intros s r s' l. unfold call_first.
  pose proof (P_first n leaves c s) as HP.
  destruct (first n leaves s c) as [r1 s1]. by intros [= <- <- <-].
Qed.

Lemma post_call_node (n : node_id) (computed : list pyobj)
      (c : Context) :
  post P (call_node node n computed c).
Proof using P_node.
  intros s r s' l. unfold call_node.
  pose proof (P_node n computed c s) as HP.
  destruct (node n computed s c) as [r1 s1]. by intros [= <- <- <-].
Qed.

Lemma post_compute_args (rec : Expr → M pyobj) (l : list pyobj) :
  (∀ e, post P (rec e)) → post P (compute_args rec l).
Proof using P_refl P_trans.
  intros Hrec. induction l as [|a l IH]; cbn [compute_args].
  - apply post_ret.
  - destruct (is_valid_input a); [|done].
    apply post_bind.
    + destruct (as_Expr a); [apply Hrec | apply post_ret].
    + intros v. apply post_bind; [done|]. intros vs. apply post_ret.
Qed.

Lemma post_general (rec : Expr → M pyobj) (n : node_id) (c : Context) :
  (∀ e, post P (rec e)) → post P (general_case h node rec n c).
Proof using P_refl P_trans P_node.
  intros Hrec. unfold general_case. apply post_bind.
  - by apply post_compute_args.
  - intros computed. apply post_call_node.
Qed.

Lemma post_or_else {A} (m k : M A) :
  post P m → post P k → post P (or_else_if_not_implemented m k).
Proof using P_trans.
  intros Hm Hk s r s' l
    [[E _]|(s1 & l1 & l2 & E & E2 & ->)]%or_else_Some.
  - by eapply Hm.
  - eapply P_trans; [by eapply Hm | by eapply Hk].
Qed.

Lemma post_exec (fuel : nat) (e : Expr) (c : option Context) :
  post P (exec fuel e c).
Proof using P_refl P_trans P_first P_node.
  revert e c. induction fuel as [|fuel IH]; intros e c s r s' l.
  - simpl. destruct (OD.get (op e) s); [|done].
    intros [= <- <- <-]. apply P_refl.
  - rewrite exec_unfold. destruct (OD.get (op e) s).
    { intros [= <- <- <-]. apply P_refl. }
    cbv zeta. destruct (root_values s (get_node h (op e))).
    + apply post_or_else; [apply post_call_first|].
      apply post_general. intros arg. apply IH.
    + apply post_general. intros arg. apply IH.
Qed.

End Post.

(** Evaluators that leave the scope alone: so does the engine. *)
Lemma exec_frame (fuel : nat) (e : Expr) (c : option Context)
      (s s' : Scope) (r : result pyobj) (l : list event) :
  read_only first → read_only node →
  exec fuel e c s = Some (r, s', l) → s' = s.
Proof.
  intros Hfirst Hnode.
  apply (post_exec (λ s s' _, s' = s)); [done | | done | done].
  by intros s1 s2 s3 _ _ -> ->.
Qed.

Lemma replay_app (l1 l2 : list event) (s : Scope) :
  replay first node (l1 ++ l2) s
  = replay first node l2 (replay first node l1 s).
Proof.
  revert s. induction l1 as [|ev l1 IH]; intros s; [done|].
  destruct ev; cbn [app replay]; apply IH.
Qed.

(** Whatever the evaluators do, the scope after a call is the scope
    before it with their changes and no other. *)
Lemma exec_replay (fuel : nat) (e : Expr) (c : option Context)
      (s s' : Scope) (r : result pyobj) (l : list event) :
  exec fuel e c s = Some (r, s', l) → s' = replay first node l s.
Proof.
  apply (post_exec (λ s s' l, s' = replay first node l s));
    [done | | done | done].
  intros s1 s2 s3 l1 l2 -> ->. by rewrite replay_app.
Qed.

(** The engine itself never calls the preload hook. *)
Lemma exec_quiet (fuel : nat) (e : Expr) (c : option Context)
      (s s' : Scope) (r : result pyobj) (l : list event) :
  exec fuel e c s = Some (r, s', l) → filter is_preload l = [].
Proof.
  apply (post_exec (λ _ _ l, filter is_preload l = []));
    [done | | done | done].
  intros _ _ _ l1 l2 E1 E2. by rewrite filter_app, E1, E2.
Qed.

(** *** More fuel changes nothing *)

Lemma compute_args_mono (rec rec' : Expr → M pyobj) (l : list pyobj)
      (s : Scope) (x : result (list pyobj) * Scope * list event) :
  (∀ e s1 y, rec e s1 = Some y → rec' e s1 = Some y) →
  compute_args rec l s = Some x → compute_args rec' l s = Some x.
Proof.
  intros Hrec. revert s x.
  induction l as [|a l IH]; intros s x; cbn [compute_args]; [done|].
  destruct (is_valid_input a); [|apply IH].
  apply bind_mono.
  - destruct (as_Expr a); [apply Hrec | done].
  - intros v s1 y. apply bind_mono; [apply IH | done].
Qed.

Lemma or_else_mono {A} (m k k' : M A) (s : Scope)
      (x : result A * Scope * list event) :
  (∀ s1 y, k s1 = Some y → k' s1 = Some y) →
  or_else_if_not_implemented m k s = Some x →
  or_else_if_not_implemented m k' s = Some x.
Proof.
  intros Hk. unfold or_else_if_not_implemented.
  destruct (m s) as [[[[a|e] s1] l1]|]; [done| |done].
  destruct e; try done.
  destruct (k s1) as [[[r2 s2] l2]|] eqn:E; [|done].
  by rewrite (Hk _ _ E).
Qed.

Lemma exec_mono (fuel fuel' : nat) (e : Expr) (c : option Context)
      (s : Scope) (x : result pyobj * Scope * list event) :
  fuel ≤ fuel' → exec fuel e c s = Some x → exec fuel' e c s = Some x.
Proof.
  revert fuel' e c s x.
  induction fuel as [|fuel IH]; intros fuel' e c s x Hle.
  - simpl. destruct (OD.get (op e) s) as [v|] eqn:Hget; [|done].
    intros <-. by apply exec_hit.
  - destruct fuel' as [|fuel']; [lia|]. rewrite !exec_unfold.
    destruct (OD.get (op e) s); [done|]. cbv zeta.
    assert (∀ s1 y,
               general_case h node
                 (λ arg, exec fuel arg (Some (default Summarize c)))
                 (op e) (default Summarize c) s1 = Some y →
               general_case h node
                 (λ arg, exec fuel' arg (Some (default Summarize c)))
                 (op e) (default Summarize c) s1 = Some y) as Hgen.
    { intros s1 y. unfold general_case. apply bind_mono; [|done].
      intros z. apply compute_args_mono. intros arg s2 z'. apply IH.
      lia. }
    destruct (root_values s (get_node h (op e))); [|apply Hgen].
    by apply or_else_mono.
Qed.

(** *** Without cycles the recursion ends *)

Lemma compute_args_total (rec : Expr → M pyobj) (l : list pyobj)
      (s : Scope) :
  (∀ e s1, e ∈ omap as_Expr l → is_Some (rec e s1)) →
  is_Some (compute_args rec l s).
Proof.
  revert s. induction l as [|a l IH]; intros s Hrec; cbn [compute_args].
  - by eexists.
  - assert (∀ e s1, e ∈ omap as_Expr l → is_Some (rec e s1)) as Hrec'.
    { intros e s1 He. apply Hrec. csimpl.
      destruct (as_Expr a); [by apply list_elem_of_further | done]. }
    destruct (is_valid_input a); [|by apply IH].
    apply bind_total.
    + destruct (as_Expr a) as [e|] eqn:Ha; [|by eexists].
      apply Hrec. csimpl. rewrite Ha. apply list_elem_of_here.
    + intros v s1. apply bind_total; [by apply IH|].
      intros vs s2. by eexists.
Qed.

Lemma general_total (rec : Expr → M pyobj) (n : node_id) (c : Context)
      (s : Scope) :
  (∀ e s1, e ∈ expr_args (get_node h n) → is_Some (rec e s1)) →
  is_Some (general_case h node rec n c s).
Proof.
  intros Hrec. unfold general_case. apply bind_total.
  - by apply compute_args_total.
  - intros computed s1. unfold call_node.
    destruct (node n computed s1 c). by eexists.
Qed.

Lemma exec_total (rank : node_id → nat) (fuel : nat) (e : Expr)
      (c : option Context) (s : Scope) :
  (∀ n e', e' ∈ expr_args (get_node h n) → rank (op e') < rank n) →
  rank (op e) < fuel →
  is_Some (exec fuel e c s).
Proof.
  intros Hrank. revert e c s.
  induction fuel as [|fuel IH]; intros e c s Hlt; [lia|].
  rewrite exec_unfold. destruct (OD.get (op e) s); [by eexists|].
  cbv zeta.
  assert (∀ s1,
             is_Some (general_case h node
                        (λ arg, exec fuel arg (Some (default Summarize c)))
                        (op e) (default Summarize c) s1)) as Hgen.
  { intros s1. apply general_total. intros e' s2 He'. apply IH.
    specialize (Hrank _ _ He'). lia. }
  destruct (root_values s (get_node h (op e))) as [leaves|]; [|done].
  unfold or_else_if_not_implemented, call_first.
  destruct (first (op e) leaves s (default Summarize c)) as [[v|x] s1];
    [by eexists|].
  destruct x; try by eexists.
  destruct (Hgen s1) as [[[r2 s2] l2] ->]. by eexists.
Qed.

(** *** A call that asks nothing of the evaluators is a hit *)

Lemma compute_args_silent (rec : Expr → M pyobj) (l : list pyobj)
      (s s' : Scope) (r : result (list pyobj)) :
  (∀ e s1 s2 r1, rec e s1 = Some (r1, s2, []) → ∃ v, r1 = Ok v) →
  compute_args rec l s = Some (r, s', []) → ∃ vs, r = Ok vs.
Proof.
  intros Hrec. revert s r.
  induction l as [|a l IH]; intros s r; cbn [compute_args].
  - intros [= <- <-]. by eexists.
  - destruct (is_valid_input a); [|apply IH].
    intros [(x & -> & E)|(v & s1 & l1 & l2 & E & E2 & Hl)]%bind_Some.
    + destruct (as_Expr a); [|done].
      by destruct (Hrec _ _ _ _ E).
    + apply bind_Some in E2
        as [(x & -> & E2)|(vs & s2 & l3 & l4 & E2 & E3 & ->)].
      * symmetry in Hl. apply app_eq_nil in Hl as [-> ->].
        by destruct (IH _ _ E2).
      * injection E3 as <- <- <-. by eexists.
Qed.

Lemma exec_silent (fuel : nat) (e : Expr) (c : option Context)
      (s s' : Scope) (r : result pyobj) :
  exec fuel e c s = Some (r, s', []) →
  ∃ v, OD.get (op e) s = Some v ∧ r = Ok v.
Proof.
  revert e c s s' r. induction fuel as [|fuel IH]; intros e c s s' r.
  - simpl. destruct (OD.get (op e) s) as [v|]; [|done].
    intros [= <- <-]. by exists v.
  - rewrite exec_unfold. destruct (OD.get (op e) s) as [v|].
    { intros [= <- <-]. by exists v. }
    cbv zeta. intros Hrun. exfalso.
    assert (∀ s1 s2 r1,
               general_case h node
                 (λ arg, exec fuel arg (Some (default Summarize c)))
                 (op e) (default Summarize c) s1 ≠ Some (r1, s2, []))
      as Hgen.
    { intros s1 s2 r1
        [(x & -> & E)|(vs & s3 & l1 & l2 & E & E2 & Hl)]%bind_Some.
      - apply compute_args_silent in E as [? [=]].
        intros arg s4 s5 r2 Harg.
        destruct (IH _ _ _ _ _ Harg) as (v & _ & ->). by exists v.
      - unfold call_node in E2.
        destruct (node (op e) vs s3 (default Summarize c)).
        injection E2 as <- <- <-. symmetry in Hl.
        by apply app_eq_nil in Hl as [_ [=]]. }
    destruct (root_values s (get_node h (op e))) as [leaves|];
      [|by apply Hgen in Hrun].
    apply or_else_Some in Hrun
      as [[E _]|(s1 & l1 & l2 & E & E2 & Hl)]; unfold call_first in E;
      destruct (first (op e) leaves s (default Summarize c));
      simplify_eq/=.
Qed.

(** *** Where the fast path is not to be had *)

Lemma compute_args_ext (rec rec' : Expr → M pyobj) (l : list pyobj)
      (s : Scope) :
  (∀ e s1, e ∈ omap as_Expr l → rec e s1 = rec' e s1) →
  compute_args rec l s = compute_args rec' l s.
Proof.
  revert s. induction l as [|a l IH]; intros s Hrec; cbn [compute_args];
    [done|].
  assert (∀ e s1, e ∈ omap as_Expr l → rec e s1 = rec' e s1) as Hrec'.
  { intros e s1 He. apply Hrec. csimpl.
    destruct (as_Expr a); [by apply list_elem_of_further | done]. }
  destruct (is_valid_input a); [|by apply IH].
  apply bind_ext.
  - destruct (as_Expr a) as [e|] eqn:Ha; [|done].
    apply Hrec. csimpl. rewrite Ha. apply list_elem_of_here.
  - intros v s1. apply bind_ext; [by apply IH | done].
Qed.

Lemma reachable_arg (e e' : Expr) (n : node_id) :
  e' ∈ expr_args (get_node h (op e)) →
  reachable h e' n → reachable h e n.
Proof.
  intros He'. induction 1 as [|n a _ IH Ha].
  - econstructor; [constructor | done].
  - by econstructor.
Qed.

Lemma exec_fallthrough (fuel : nat) (e : Expr) (c : option Context)
      (s : Scope) :
  OD.get (op e) s = None →
  fast_path_absent h first s (op e) →
  fst <$> exec (S fuel) e c s
  = fst <$> general_case h node
              (λ arg, exec fuel arg (Some (default Summarize c)))
              (op e) (default Summarize c) s.
Proof.
  intros Hget Habs. rewrite exec_unfold, Hget. cbv zeta.
  unfold fast_path_absent in Habs.
  destruct (root_values s (get_node h (op e))) as [leaves|]; [|done].
  unfold or_else_if_not_implemented, call_first. rewrite Habs.
  by destruct (general_case _ _ _ _ _ s) as [[[r2 s2] l2]|].
Qed.

Lemma exec_absent (fuel : nat) (e : Expr) (c : option Context)
      (s : Scope) :
  (∀ s1 n, reachable h e n → fast_path_absent h first s1 n) →
  exec fuel e c s = execute_with_scope h not_registered node fuel e c s.
Proof.
  revert e c s. induction fuel as [|fuel IH]; intros e c s Habs; [done|].
  rewrite exec_unfold. cbn [execute_with_scope].
  destruct (OD.get (op e) s); [done|]. cbv zeta.
  assert (∀ s1,
             general_case h node
               (λ arg, exec fuel arg (Some (default Summarize c)))
               (op e) (default Summarize c) s1
             = general_case h node
                 (λ arg, execute_with_scope h not_registered node fuel arg
                           (Some (default Summarize c)))
                 (op e) (default Summarize c) s1) as Hgen.
  { intros s1. unfold general_case. apply bind_ext; [|done].
    apply compute_args_ext. intros e' s2 He'. apply IH.
    intros s3 n Hn. apply Habs. by eapply reachable_arg. }
  pose proof (Habs s (op e) (reach_root h e)) as Hroot.
  unfold fast_path_absent in Hroot.
  destruct (root_values s (get_node h (op e))) as [leaves|]; [|done].
  unfold or_else_if_not_implemented, call_first, not_registered.
  rewrite Hroot. by rewrite Hgen.
Qed.

End EngineFacts.

(** ** The preload pass *)

Section PreloadFacts.

Variable preload : node_id → pyobj → Scope → result pyobj.

Lemma keys_insert (i : nat) (k : node_id) (v v' : pyobj) (s : Scope) :
  s !! i = Some (k, v) → OD.keys (<[i := (k, v')]> s) = OD.keys s.
Proof.
  intros Hi. unfold OD.keys. rewrite list_fmap_insert.
  apply list_insert_id. by rewrite list_lookup_fmap, Hi.
Qed.

Lemma preload_items_done (i : nat) (s : Scope) :
  length s ≤ i →
  [] = preload_event <$> drop i s
  ∧ ∀ j k v, i ≤ j → s !! j = Some (k, v) →
      ∃ r, preload k v (take j s ++ drop j s) = Ok r
           ∧ s !! j = Some (k, r).
Proof.
  intros Hlen. split; [by rewrite drop_ge|].
  intros j k v Hj Hs. apply lookup_lt_Some in Hs. lia.
Qed.

(** From the [i]-th item on: one call of the hook for each item, on the
    value it had, with the dictionary as the calls before have left it;
    the result takes the place of the value. *)
Lemma preload_items_spec (n i : nat) (s s' : Scope) (l : list event) :
  OD.wf s → length s ≤ i + n →
  preload_items preload n i s = Some (Ok tt, s', l) →
  l = preload_event <$> drop i s
  ∧ OD.keys s' = OD.keys s
  ∧ take i s' = take i s
  ∧ ∀ j k v, i ≤ j → s !! j = Some (k, v) →
      ∃ r, preload k v (take j s' ++ drop j s) = Ok r
           ∧ s' !! j = Some (k, r).
Proof.
  revert i s s' l. induction n as [|n IH]; intros i s s' l Hwf Hlen.
  - cbn [preload_items]. intros [= <- <-].
    destruct (preload_items_done i s) as [Hl Hj]; [lia|].
    by split_and!.
  - cbn [preload_items]. destruct (s !! i) as [[k0 raw]|] eqn:Hi.
    2:{ intros [= <- <-]. apply lookup_ge_None in Hi.
        destruct (preload_items_done i s) as [Hl Hj]; [lia|].
        by split_and!. }
    pose proof (lookup_lt_Some _ _ _ Hi) as Hlt.
    intros [(x & [=] & _)|(v1 & s1 & l1 & l2 & E & E2 & ->)]%bind_Some.
    unfold call_preload in E.
    destruct (preload k0 raw s) as [w|] eqn:Hw; [|done].
    injection E as <- <- <-.
    apply bind_Some in E2
      as [(x & [=] & _)|([] & s2 & l3 & l4 & E2 & E3 & ->)].
    unfold set_item in E2. injection E2 as <- <-.
    rewrite (ODFacts.set_lookup i k0 raw w s Hwf Hi) in E3.
    apply IH in E3 as (Hl & Hkeys & Htake & Hj).
    2:{ unfold OD.wf. by rewrite (keys_insert i k0 raw w s Hi). }
    2:{ rewrite length_insert. lia. }
    assert (take i s' = take i s) as Htake'.
    { rewrite <- (take_insert_ge s i i (k0, w)) by lia.
      assert (∀ t : Scope, take i t = take i (take (S i) t)) as Ht.
      { intros t. rewrite take_take. f_equal. lia. }
      by rewrite (Ht s'), Htake, <- Ht. }
    split_and!.
    + rewrite Hl, drop_insert_lt by lia. cbn [app].
      by rewrite (drop_S s (k0, raw) i Hi).
    + by rewrite Hkeys, (keys_insert i k0 raw w s Hi).
    + done.
    + intros j k v0 Hij Hjs. destruct (decide (j = i)) as [->|Hne].
      * rewrite Hi in Hjs. injection Hjs as <- <-.
        exists w. rewrite Htake', take_drop. split; [done|].
        rewrite <- (lookup_take_lt s' (S i) i), Htake by lia.
        rewrite lookup_take_lt by lia.
        by apply list_lookup_insert_eq.
      * destruct (Hj j k v0) as (r & Hr & Hs'); [lia | |].
        { by rewrite list_lookup_insert_ne. }
        exists r. split; [|done].
        by rewrite drop_insert_lt in Hr by lia.
Qed.

End PreloadFacts.

(** ** The top-level entry point *)

Section TopFacts.

Variable h : heap.
Variables first node : evaluator.
Variable preload : node_id → pyobj → Scope → result pyobj.

Lemma execute_without_scope_unfold (fuel : nat) (root : Expr)
      (params : option (list (param_key * pyobj)))
      (scope : option Scope) (context : option Context) (d : OD.t) :
  find_data h root = Some (Ok d) → d ≠ [] →
  execute_without_scope h first node preload fuel root params scope
                        context
  = bind (preload_items preload (length (new_scope scope params d)) 0)
         (λ _, execute_with_scope h first node fuel root
                 (Some (default Summarize context)))
         (new_scope scope params d).
Proof.
  intros Hfd Hd. unfold execute_without_scope. rewrite Hfd.
  by destruct d.
Qed.

Lemma execute_without_scope_mono (fuel fuel' : nat) (root : Expr)
      (params : option (list (param_key * pyobj)))
      (scope : option Scope) (context : option Context)
      (x : result pyobj * Scope * list event) :
  fuel ≤ fuel' →
  execute_without_scope h first node preload fuel root params scope
                        context = Some x →
  execute_without_scope h first node preload fuel' root params scope
                        context = Some x.
Proof.
  intros Hle. unfold execute_without_scope.
  destruct (find_data h root) as [[d|?]|]; [|done..].
  destruct d as [|kv d]; [done|].
  apply bind_mono; [done|]. intros _ s1 y. by apply exec_mono.
Qed.

(** The three dictionaries, the later over the earlier. *)
Lemma new_scope_get (scope : option Scope)
      (params : option (list (param_key * pyobj))) (d : OD.t)
      (k : node_id) :
  OD.wf (default OD.empty scope) → OD.wf d →
  OD.get k (new_scope scope params d)
  = match OD.get k (normalize_params (default [] params)) with
    | Some v => Some v
    | None =>
        match OD.get k d with
        | Some v => Some v
        | None => OD.get k (default OD.empty scope)
        end
    end.
Proof.
  intros Hscope Hd. unfold new_scope, toolz_merge. cbn [foldl].
  rewrite ODFacts.get_update by apply ODFacts.wf_normalize_params.
  rewrite ODFacts.get_update by done.
  rewrite ODFacts.get_update by done.
  cbn [OD.get].
  by destruct (OD.get k (default OD.empty scope)).
Qed.

End TopFacts.

(** ** The claims about the engine *)

Lemma read_only_not_registered : read_only not_registered.
Proof. by intros n computed s c. Qed.

Lemma read_only_add_node : read_only Example.add_node.
Proof.
  intros n computed s c. unfold Example.add_node.
  repeat case_match; done.
Qed.

Lemma example_acyclic : acyclic Example.graph.
Proof.
  exists id. intros n e He. unfold id.
  do 5 (destruct n as [|n];
        [vm_compute in He; apply list_elem_of_In in He; simpl in He;
         intuition (subst; simpl; lia)|]).
  vm_compute in He. by apply elem_of_nil in He.
Qed.

(** C1.  In [execute_without_scope] the scope that is preloaded and
    executed against is [new_scope]: the explicit scope, the bindings that
    [find_data] found and the normalized [params], merged in this order.
    Under every key the merged scope has the value of the override when
    there is one, else the discovered value when there is one, else the
    value of the explicit scope: the last writer wins and values are never
    combined. *)
Theorem scope_merge_priority (h : heap) (first node : evaluator)
        (preload : node_id → pyobj → Scope → result pyobj) (fuel : nat)
        (root : Expr) (params : option (list (param_key * pyobj)))
        (scope : option Scope) (context : option Context) (d : OD.t) :
  OD.wf (default OD.empty scope) →
  find_data h root = Some (Ok d) →
  d ≠ [] →
  execute_without_scope h first node preload fuel root params scope context
  = bind (preload_items preload (length (new_scope scope params d)) 0)
         (λ _, execute_with_scope h first node fuel root
                 (Some (default Summarize context)))
         (new_scope scope params d)
  ∧ ∀ k,
      OD.get k (new_scope scope params d)
      = match OD.get k (normalize_params (default [] params)) with
        | Some v => Some v
        | None =>
            match OD.get k d with
            | Some v => Some v
            | None => OD.get k (default OD.empty scope)
            end
        end.
Proof.
  intros Hscope Hfd Hd. split.
  - by apply execute_without_scope_unfold.
  - intros k. apply new_scope_get; [done|]. by eapply find_data_wf.
Qed.

Lemma scope_merge_priority_witness :
  let scope := Some [(Example.Lit2, PInt 7); (9, PInt 1)] in
  let params := Some [(KExpr (mkExpr Example.BoundX), PInt 100)] in
  let d := [(Example.Lit2, PInt 2); (Example.BoundX, PInt 5);
            (Example.Lit3, PInt 3)] in
  OD.get Example.BoundX (new_scope scope params d) = Some (PInt 100)
  ∧ OD.get Example.Lit2 (new_scope scope params d) = Some (PInt 2)
  ∧ OD.get 9 (new_scope scope params d) = Some (PInt 1).
Proof.
  intros scope params d.
  destruct (scope_merge_priority Example.graph not_registered
              Example.add_node Example.keep 2 Example.root params scope
              None d) as [_ Hk].
  - apply (bool_decide_unpack _). vm_compute. exact I.
  - vm_compute. reflexivity.
  - discriminate.
  - split_and!; rewrite Hk; vm_compute; reflexivity.
Defined.

(** C2.  When the root leads to no node with a [source] and to no
    [Literal], [execute_without_scope] raises the [ValueError] that says no
    data sources were found, and it has called neither the preload hook nor
    any evaluator. *)
Theorem no_data_no_evaluation (h : heap) (first node : evaluator)
        (preload : node_id → pyobj → Scope → result pyobj) (fuel : nat)
        (root : Expr) (params : option (list (param_key * pyobj)))
        (scope : option Scope) (context : option Context) :
  (∀ n, reachable h root n →
        ¬ has_source (get_node h n) ∧ ¬ is_Literal (get_node h n)) →
  execute_without_scope h first node preload fuel root params scope context
  = Some (Raise ValueError, OD.empty, []).
Proof.
  intros Hnone.
  assert (∀ n, reachable h root n → node_data (get_node h n) = None)
    as Hnd.
  { intros n Hn. destruct (Hnone n Hn) as [Hs Hl].
    destruct (node_data (get_node h n)) eqn:E; [|done].
    assert (is_Some (node_data (get_node h n))) as Hsome by by eexists.
    apply node_data_is_Some in Hsome as [?|?]; done. }
  destruct (find_data_visits_once_aux h root) as (w & Hrun & Hget).
  { intros n x Hn. by rewrite (Hnd n Hn). }
  unfold execute_without_scope. rewrite Hrun.
  destruct (data w) as [|[k v] d] eqn:Hd; [done|].
  exfalso. destruct (Hget k v) as [Hkv _].
  destruct Hkv as [Hk Hv].
  { cbn [OD.get]. by rewrite decide_True. }
  by rewrite (Hnd k Hk) in Hv.
Qed.

Lemma no_data_no_evaluation_witness :
  execute_without_scope Unbound.graph not_registered Example.add_node
                        Example.keep 3 Unbound.root None None None
  = Some (Raise ValueError, OD.empty, []).
Proof.
  apply no_data_no_evaluation.
  intros n _. unfold get_node.
  destruct n as [|n]; split; intros [? [=]].
Defined.

(** C5.  A node that is a key of the scope: [execute_with_scope] returns
    the stored value at once.  No fuel is needed, so nothing recurses; the
    scope is as it was; and the list of calls is empty, so neither
    [execute_first] nor [execute_node] was asked anything. *)
Theorem memo_hit_returns_stored (h : heap) (first node : evaluator)
        (fuel : nat) (e : Expr) (c : option Context) (s : Scope)
        (v : pyobj) :
  OD.get (op e) s = Some v →
  execute_with_scope h first node fuel e c s = Some (Ok v, s, [])
  ∧ execute_with_scope h first node 0 e c s = Some (Ok v, s, []).
Proof. intros Hget. split; by apply exec_hit. Qed.

Lemma memo_hit_returns_stored_witness :
  execute_with_scope Example.graph not_registered Example.add_node 0
                     (mkExpr Example.BoundX) None Example.leaves
  = Some (Ok (PInt 5), Example.leaves, []).
Proof.
  apply (memo_hit_returns_stored Example.graph not_registered
           Example.add_node 0 (mkExpr Example.BoundX) None Example.leaves
           (PInt 5)).
  reflexivity.
Defined.

(** C9.  A call of [execute_with_scope] that returns or raises has itself
    added, overwritten and removed nothing in the scope: the scope after
    the call is the scope before it with the changes of the evaluators that
    were called and no other, whatever the evaluators are.  With evaluators
    that leave the scope dictionary as they found it, as the dispatch
    contract asks of them, the scope after the call is the scope before
    it. *)
Theorem scope_is_read_through (h : heap) (first node : evaluator)
        (fuel : nat) (e : Expr) (c : option Context) (s s' : Scope)
        (r : result pyobj) (l : list event) :
  execute_with_scope h first node fuel e c s = Some (r, s', l) →
  s' = replay first node l s
  ∧ (read_only first → read_only node → s' = s).
Proof.
  intros Hrun. split.
  - exact (exec_replay h first node fuel e c s s' r l Hrun).
  - intros Hfirst Hnode.
    exact (exec_frame h first node fuel e c s s' r l Hfirst Hnode Hrun).
Qed.

Lemma scope_is_read_through_witness :
  ∃ r l,
    execute_with_scope Example.graph not_registered Example.add_node 2
                       Example.root None Example.leaves
    = Some (r, Example.leaves, l).
Proof.
  destruct (execute_with_scope Example.graph not_registered Example.add_node
              2 Example.root None Example.leaves)
    as [[[r s'] l]|] eqn:Hrun; [|by vm_compute in Hrun].
  exists r, l. f_equal. f_equal. f_equal.
  exact (proj2 (scope_is_read_through Example.graph not_registered
                  Example.add_node 2 Example.root None Example.leaves s' r l
                  Hrun)
               read_only_not_registered read_only_add_node).
Defined.

(** C3, as the specification has it, fails: on the example graph with a
    scope that holds every leaf, the second call asks the evaluators
    again. *)
Lemma second_call_is_memo_counterexample :
  ¬ second_call_is_memo Example.graph not_registered Example.add_node 2
      Example.root None Example.leaves.
Proof.
  intros Hmemo.
  destruct (Hmemo (Ok (PInt 10)) Example.leaves
              [CallFirst Example.Root [PInt 5] Summarize;
               CallFirst Example.Inner [PInt 5] Summarize;
               CallNode Example.Inner [PInt 5; PInt 3] Summarize;
               CallNode Example.Root [PInt 2; PInt 8] Summarize]
              eq_refl) as (l2 & Hrun & Hnone).
  vm_compute in Hrun. injection Hrun as <-.
  apply (Hnone Example.Root [PInt 2; PInt 8] Summarize).
  do 3 apply list_elem_of_further. apply list_elem_of_here.
Qed.

(** C3, amended.  On a graph without cycles, with evaluators that leave
    the scope as they found it, and for every scope, two calls of
    [execute_with_scope] on the root in sequence both end, with the same
    outcome; the second call asks the evaluators exactly what the first
    asked, because the engine stores no result in the scope.  It asks them
    nothing only when the root is itself a key of the scope; when it is
    not, at least one evaluator is called again. *)
Theorem second_call_reevaluates (h : heap) (first node : evaluator)
        (e : Expr) (c : option Context) (s : Scope) :
  acyclic h → read_only first → read_only node →
  ∃ fuel0, ∀ fuel, fuel0 ≤ fuel →
    ∃ r s1 l,
      execute_with_scope h first node fuel e c s = Some (r, s1, l)
      ∧ execute_with_scope h first node fuel e c s1 = Some (r, s1, l)
      ∧ (OD.get (op e) s = None → l ≠ [])
      ∧ (∀ v, OD.get (op e) s = Some v → r = Ok v ∧ l = []).
Proof.
  intros [rank Hrank] Hfirst Hnode. exists (S (rank (op e))).
  intros fuel Hfuel.
  destruct (exec_total h first node rank fuel e c s Hrank)
    as [[[r s1] l] Hrun]; [lia|].
  pose proof (exec_frame h first node fuel e c s s1 r l Hfirst Hnode Hrun)
    as ->.
  exists r, s, l. split_and!; try done.
  - intros Hmiss ->.
    apply exec_silent in Hrun as (v & Hv & _). congruence.
  - intros v Hv. rewrite (exec_hit h first node fuel e c s v Hv) in Hrun.
    by injection Hrun as <- <-.
Qed.

Lemma second_call_reevaluates_witness :
  ∃ fuel0, ∀ fuel, fuel0 ≤ fuel →
    ∃ r s1 l,
      execute_with_scope Example.graph not_registered Example.add_node fuel
                         Example.root None Example.leaves = Some (r, s1, l)
      ∧ execute_with_scope Example.graph not_registered Example.add_node
                           fuel Example.root None s1 = Some (r, s1, l)
      ∧ l ≠ [].
Proof.
  destruct (second_call_reevaluates Example.graph not_registered
              Example.add_node Example.root None Example.leaves
              example_acyclic read_only_not_registered read_only_add_node)
    as [fuel0 Hall].
  exists fuel0. intros fuel Hfuel.
  destruct (Hall fuel Hfuel) as (r & s1 & l & H1 & H2 & Hmiss & _).
  exists r, s1, l. split_and!; [exact H1 | exact H2 |].
  apply Hmiss. reflexivity.
Defined.

(** C4, as the specification has it, fails: [Negate] has no fast path,
    its argument [Add] has one, and the run takes it; with no fast path
    registered at all the result is another. *)
Lemma fallthrough_as_unregistered_counterexample :
  ¬ fallthrough_as_unregistered Fast.graph Fast.first Fast.node 3
      Fast.root None Fast.scope.
Proof.
  intros Hclaim.
  assert (fast_path_absent Fast.graph Fast.first Fast.scope (op Fast.root))
    as Habs.
  { unfold fast_path_absent.
    change (root_values Fast.scope (get_node Fast.graph (op Fast.root)))
      with (Some [PInt 5]).
    by intros s c. }
  specialize (Hclaim Habs). vm_compute in Hclaim. discriminate.
Qed.

(** C4, amended.  For a node that is not a key of the scope and for which
    the fast path is not to be had (a root table is missing from the
    scope, or nothing is registered for the node and the leaf values),
    [execute_with_scope] raises nothing from the attempt and its result is
    that of the general case: the arguments are evaluated in turn, each
    with whatever fast path applies to it, and the operation is dispatched
    to [execute_node].  When the fast path is not to be had for any node
    that the expression leads to, in any scope, the whole run is the run
    with no fast path registered at all. *)
Theorem fast_path_fallthrough (h : heap) (first node : evaluator)
        (fuel : nat) (e : Expr) (c : option Context) (s : Scope) :
  OD.get (op e) s = None →
  fast_path_absent h first s (op e) →
  fst <$> execute_with_scope h first node (S fuel) e c s
  = fst <$> general_case h node
              (λ arg, execute_with_scope h first node fuel arg
                        (Some (default Summarize c)))
              (op e) (default Summarize c) s
  ∧ ((∀ s1 n, reachable h e n → fast_path_absent h first s1 n) →
     execute_with_scope h first node (S fuel) e c s
     = execute_with_scope h not_registered node (S fuel) e c s).
Proof.
  intros Hget Habs. split.
  - by apply exec_fallthrough.
  - apply exec_absent.
Qed.

Lemma fast_path_fallthrough_witness :
  fst <$> execute_with_scope Fast.graph Fast.first Fast.node 2
            Fast.root None Fast.scope
  = Some (Ok (PInt 0), Fast.scope).
Proof.
  destruct (fast_path_fallthrough Fast.graph Fast.first Fast.node 1
              Fast.root None Fast.scope) as [Hstep _].
  - reflexivity.
  - unfold fast_path_absent.
    change (root_values Fast.scope (get_node Fast.graph (op Fast.root)))
      with (Some [PInt 5]).
    by intros s c.
  - rewrite Hstep. vm_compute. reflexivity.
Defined.

(** C7, as the specification has it, fails on the order of the mapping:
    [find_data] does not return [Literal(3)] before [BoundX]. *)
Lemma find_data_example_counterexample :
  find_data Example.graph Example.root
  ≠ Some (Ok [(Example.Lit2, PInt 2); (Example.Lit3, PInt 3);
              (Example.BoundX, PInt 5)]).
Proof. vm_compute. discriminate. Qed.

(** C7, amended.  For [Add(Literal(2), Add(BoundX, Literal(3)))] with
    [BoundX] bound to 5, [execute_without_scope] returns 10 (with fuel for
    the two levels of the graph, and with any more), and [find_data]
    returns the ordered mapping [Literal(2): 2, BoundX: 5, Literal(3): 3]:
    the order in which the walk meets the nodes, arguments from left to
    right. *)
Theorem example_evaluates_to_ten (k : nat) :
  (∃ s l, Example.run (2 + k) = Some (Ok (PInt 10), s, l))
  ∧ find_data Example.graph Example.root
    = Some (Ok [(Example.Lit2, PInt 2); (Example.BoundX, PInt 5);
                (Example.Lit3, PInt 3)]).
Proof.
  split; [|by vm_compute].
  eexists _, _. unfold Example.run.
  apply (execute_without_scope_mono _ _ _ _ 2); [lia|].
  vm_compute. reflexivity.
Qed.

(** C8.  Once [find_data] has found bindings and the three dictionaries
    are merged, a preload pass that ends normally has called the hook once
    for every item of the merged scope, in the order of the items and on
    the value the merge decided; the keys are distinct nodes, so no node is
    preloaded twice.  The scope after the pass has the same keys, each with
    the result that the hook returned for it (the hook having been given
    the scope with the items before it already replaced).  In the whole
    run these are all the calls of the hook and they come before any
    evaluator is asked: the engine is then run on the preloaded scope. *)
Theorem preload_once_per_entry (h : heap) (first node : evaluator)
        (preload : node_id → pyobj → Scope → result pyobj) (fuel : nat)
        (root : Expr) (params : option (list (param_key * pyobj)))
        (scope : option Scope) (context : option Context) (d : OD.t)
        (s' : Scope) (l : list event) :
  find_data h root = Some (Ok d) →
  d ≠ [] →
  preload_items preload (length (new_scope scope params d)) 0
                (new_scope scope params d) = Some (Ok tt, s', l) →
  l = preload_event <$> new_scope scope params d
  ∧ NoDup (OD.keys (new_scope scope params d))
  ∧ OD.keys s' = OD.keys (new_scope scope params d)
  ∧ (∀ j k v,
        new_scope scope params d !! j = Some (k, v) →
        ∃ r, preload k v (take j s' ++ drop j (new_scope scope params d))
             = Ok r
             ∧ s' !! j = Some (k, r))
  ∧ (∀ res sf evs,
        execute_without_scope h first node preload fuel root params scope
                              context = Some (res, sf, evs) →
        filter is_preload evs = l
        ∧ execute_with_scope h first node fuel root
            (Some (default Summarize context)) s'
          = Some (res, sf, drop (length l) evs)).
Proof.
  intros Hfd Hd Hpre.
  pose proof (ODFacts.wf_merge
                [default OD.empty scope; d;
                 normalize_params (default [] params)]) as Hwf.
  fold (new_scope scope params d) in Hwf.
  destruct (preload_items_spec preload _ 0 _ s' l Hwf (Nat.le_refl _) Hpre)
    as (Hl & Hkeys & _ & Hj).
  rewrite drop_0 in Hl. split_and!; try done.
  - intros j k v Hjk. apply (Hj j k v); [lia | done].
  - intros res sf evs.
    rewrite (execute_without_scope_unfold h first node preload fuel root
               params scope context d Hfd Hd).
    rewrite (bind_Ok _ _ _ _ _ _ Hpre).
    destruct (execute_with_scope h first node fuel root
                (Some (default Summarize context)) s')
      as [[[r2 s2] l2]|] eqn:Hrun; [|done].
    intros [= <- <- <-]. apply exec_quiet in Hrun as Hquiet.
    rewrite filter_app, Hquiet, app_nil_r, drop_app_length. split; [|done].
    rewrite Hl. clear. induction (new_scope scope params d) as [|kv m IH];
      [done|].
    rewrite fmap_cons, filter_cons_True by done. by rewrite IH.
Qed.

Lemma preload_once_per_entry_witness :
  ∃ s' l,
    preload_items Example.keep 3 0 (new_scope None None Example.leaves)
    = Some (Ok tt, s', l)
    ∧ l = [CallPreload Example.Lit2 (PInt 2);
           CallPreload Example.BoundX (PInt 5);
           CallPreload Example.Lit3 (PInt 3)].
Proof.
  eexists _, _. split; [vm_compute; reflexivity|].
  refine (proj1 (preload_once_per_entry Example.graph not_registered
                   Example.add_node Example.keep 2 Example.root None None
                   None Example.leaves _ _ _ _ _)).
  - vm_compute. reflexivity.
  - discriminate.
  - vm_compute. reflexivity.
Defined.

(** * Further properties *)

(** ** [find_data]: failure, and the order of the mapping *)

Section WalkMore.

Variable h : heap.

Lemma node_data_Raise (nd : Node) (x : exn) :
  node_data nd = Some (Raise x) ↔ x = KeyError ∧ name_missing nd.
Proof.
  unfold node_data, name_missing. destruct (source nd) as [src|].
  - destruct (dictionary src !! name nd) eqn:E; split.
    + intros [=].
    + intros [_ (src' & [= <-] & E')]. congruence.
    + intros [= <-]. split; [done|]. by exists src.
    + by intros [-> _].
  - split.
    + destruct (cls nd); intros [=].
    + intros [_ (src' & [=] & _)].
Qed.

Lemma loop_raise (fuel : nat) (w w' : walk) (x : exn) :
  find_data_loop h fuel w = (Some (Raise x), w') →
  ∃ n, n ∈ seen w' ∧ node_data (get_node h n) = Some (Raise x).
Proof.
  revert w. induction fuel as [|fuel IH]; intros w; [done|].
  cbn [find_data_loop]. destruct (pop (stack w)) as [[e st]|]; [|done].
  destruct (decide (op e ∈ seen w)); [apply IH|].
  destruct (node_data (get_node h (op e))) as [[v|y]|] eqn:Hnd;
    [apply IH | | apply IH].
  intros [= <- <-]. exists (op e). split; [|done].
  cbn [seen]. apply elem_of_union. left. by apply elem_of_singleton.
Qed.

Lemma loop_ok_clean (fuel : nat) (w w' : walk) :
  find_data_loop h fuel w = (Some (Ok tt), w') →
  (∀ n x, n ∈ seen w → node_data (get_node h n) ≠ Some (Raise x)) →
  ∀ n x, n ∈ seen w' → node_data (get_node h n) ≠ Some (Raise x).
Proof.
  revert w. induction fuel as [|fuel IH]; intros w; [done|].
  cbn [find_data_loop]. destruct (pop (stack w)) as [[e st]|].
  2:{ by intros [= <-]. }
  destruct (decide (op e ∈ seen w)).
  { intros Hrun Hw. by apply (IH _ Hrun). }
  destruct (node_data (get_node h (op e))) as [[v|y]|] eqn:Hnd; [| done |].
  all: intros Hrun Hw; apply (IH _ Hrun); cbn [seen];
    intros k z [Hk|Hk]%elem_of_union;
    [apply elem_of_singleton in Hk as ->; by rewrite Hnd | by apply Hw].
Qed.

Lemma loop_keys (root : Expr) (fuel : nat) (w w' : walk) :
  find_data_loop h fuel w = (Some (Ok tt), w') →
  walk_safe h root w →
  OD.keys (data w)
  = filter (λ n, is_Some (node_data (get_node h n))) (visits w) →
  OD.keys (data w')
  = filter (λ n, is_Some (node_data (get_node h n))) (visits w').
Proof.
  revert w. induction fuel as [|fuel IH]; intros w; [done|].
  cbn [find_data_loop]. destruct (pop (stack w)) as [[e st]|] eqn:Hpop.
  2:{ by intros [= <-]. }
  apply pop_Some in Hpop. destruct (decide (op e ∈ seen w)) as [Hseen|Hnew].
  { intros Hrun Hsafe Hkeys. apply (IH _ Hrun); [|done].
    by eapply safe_skip. }
  assert (walk_safe h root w → op e ∉ OD.keys (data w)) as Hfresh.
  { intros Hsafe [v Hv]%ODFacts.get_is_Some.
    by destruct (safe_data _ _ _ Hsafe _ _ Hv). }
  destruct (node_data (get_node h (op e))) as [[v|y]|] eqn:Hnd; [| done |].
  - intros Hrun Hsafe Hkeys. apply (IH _ Hrun).
    + apply (safe_visit h root w e st); try done.
      * intros e'. by rewrite elem_of_pushed_args.
      * by rewrite length_pushed_args.
      * apply ODFacts.wf_set, (safe_data_wf _ _ _ Hsafe).
      * intros n v'. rewrite ODFacts.get_set.
        destruct (decide (n = op e)) as [->|]; [|by left].
        intros [= ->]. by right.
    + cbn [data visits]. rewrite ODFacts.keys_set.
      rewrite decide_False by by apply Hfresh.
      rewrite filter_app, Hkeys. f_equal.
      rewrite filter_cons_True; [done|]. by rewrite Hnd.
  - intros Hrun Hsafe Hkeys. apply (IH _ Hrun).
    + apply (safe_visit h root w e st); try done.
      * intros e'. by rewrite elem_of_pushed_args.
      * by rewrite length_pushed_args.
      * apply (safe_data_wf _ _ _ Hsafe).
      * intros n v' Hget. by left.
    + cbn [data visits]. rewrite filter_app, Hkeys.
      rewrite filter_cons_False, filter_nil, app_nil_r; [done|].
      rewrite Hnd. by intros [? [=]].
Qed.

Lemma recursive_preorder_mono (fuel fuel' : nat) (s : gset node_id)
      (l : list Expr) (x : list node_id * gset node_id) :
  fuel ≤ fuel' →
  recursive_preorder h fuel s l = Some x →
  recursive_preorder h fuel' s l = Some x.
Proof.
  revert fuel' s l x.
  induction fuel as [|fuel IH]; intros fuel' s l x Hle; [done|].
  destruct fuel' as [|fuel']; [lia|]. cbn [recursive_preorder].
  destruct l as [|e rest]; [done|].
  destruct (decide (op e ∈ s)); [apply IH; lia|].
  destruct (recursive_preorder h fuel ({[op e]} ∪ s)
              (expr_args (get_node h (op e)))) as [[v1 s1]|] eqn:E1;
    [|done].
  rewrite (IH fuel' _ _ _ ltac:(lia) E1).
  destruct (recursive_preorder h fuel s1 rest) as [[v2 s2]|] eqn:E2;
    [|done].
  by rewrite (IH fuel' _ _ _ ltac:(lia) E2).
Qed.

Lemma recursive_preorder_app (fuel : nat) (s s' : gset node_id)
      (l1 l2 : list Expr) (v : list node_id) :
  recursive_preorder h fuel s (l1 ++ l2) = Some (v, s') →
  ∃ v1 v2 s1,
    recursive_preorder h fuel s l1 = Some (v1, s1)
    ∧ recursive_preorder h fuel s1 l2 = Some (v2, s')
    ∧ v = v1 ++ v2.
Proof.
  revert s l1 v. induction fuel as [|fuel IH]; intros s l1 v; [done|].
  destruct l1 as [|e l1].
  - intros Hrun. by exists [], v, s.
  - intros Hrun. cbn [app recursive_preorder] in Hrun.
    destruct (decide (op e ∈ s)) as [Hin|Hnin].
    + apply IH in Hrun as (v1 & v2 & s1 & H1 & H2 & ->).
      exists v1, v2, s1. split_and!; [| | done].
      * cbn [recursive_preorder]. by rewrite decide_True.
      * apply (recursive_preorder_mono fuel); [lia | done].
    + destruct (recursive_preorder h fuel ({[op e]} ∪ s)
                  (expr_args (get_node h (op e)))) as [[va sa]|] eqn:Ea;
        [|done].
      destruct (recursive_preorder h fuel sa (l1 ++ l2))
        as [[vr sr]|] eqn:Er; [|done].
      injection Hrun as <- <-.
      apply IH in Er as (v1 & v2 & s1 & H1 & H2 & ->).
      exists (op e :: va ++ v1), v2, s1. split_and!.
      * cbn [recursive_preorder]. rewrite decide_False by done.
        by rewrite Ea, H1.
      * apply (recursive_preorder_mono fuel); [lia | done].
      * cbn [app]. by rewrite <- app_assoc.
Qed.

Lemma loop_preorder (fuel : nat) (w w' : walk) :
  find_data_loop h fuel w = (Some (Ok tt), w') →
  ∃ f v,
    recursive_preorder h f (seen w) (reverse (stack w)) = Some (v, seen w')
    ∧ visits w' = visits w ++ v.
Proof.
  revert w. induction fuel as [|fuel IH]; intros w; [done|].
  cbn [find_data_loop]. destruct (pop (stack w)) as [[e st]|] eqn:Hpop.
  2:{ intros [= <-]. apply pop_None in Hpop. exists 1, [].
      by rewrite Hpop, app_nil_r. }
  apply pop_Some in Hpop. rewrite Hpop, reverse_snoc.
  destruct (decide (op e ∈ seen w)) as [Hseen|Hnew].
  { intros (f & v & Hrun & Hv)%IH. cbn [seen stack visits] in *.
    exists (S f), v. split; [|done].
    cbn [recursive_preorder]. by rewrite decide_True. }
  assert (∀ d p,
             find_data_loop h fuel
               (mkWalk (st ++ pushed_args (get_node h (op e)))
                       ({[op e]} ∪ seen w) d (visits w ++ [op e]) p)
             = (Some (Ok tt), w') →
             ∃ f v,
               recursive_preorder h f (seen w) (e :: reverse st)
               = Some (v, seen w')
               ∧ visits w' = visits w ++ v) as Hstep.
  { intros d p (f & v & Hrun & Hv)%IH. cbn [seen stack visits] in *.
    rewrite reverse_app, pushed_args_reverse, reverse_involutive in Hrun.
    apply recursive_preorder_app in Hrun
      as (v1 & v2 & s1 & H1 & H2 & ->).
    exists (S f), (op e :: v1 ++ v2). split.
    - cbn [recursive_preorder]. rewrite decide_False by done.
      by rewrite H1, H2.
    - rewrite Hv, <- app_assoc. done. }
  destruct (node_data (get_node h (op e))) as [[v|y]|];
    [apply Hstep | done | apply Hstep].
Qed.

End WalkMore.

Lemma missing_reachable :
  ∃ n, reachable Missing.graph Missing.root n
       ∧ name_missing (get_node Missing.graph n).
Proof.
  exists 0. split.
  - apply (reach_arg Missing.graph Missing.root 1 (mkExpr 0)).
    + constructor.
    + apply list_elem_of_here.
  - by exists Example.client.
Qed.

(** X1.  [find_data] raises exactly when the root leads to a node with a
    [source] whose dictionary lacks the name of the node; what it raises
    is the [KeyError] of that lookup and nothing else; and
    [execute_without_scope] then raises it too, before any call of the
    preload hook or of an evaluator. *)
Theorem find_data_key_error (h : heap) (root : Expr) :
  (∃ n, reachable h root n ∧ name_missing (get_node h n)) →
  find_data h root = Some (Raise KeyError)
  ∧ ∀ first node preload fuel params scope context,
      execute_without_scope h first node preload fuel root params scope
                            context
      = Some (Raise KeyError, OD.empty, []).
Proof.
  intros (n & Hn & Hmiss).
  assert (find_data h root = Some (Raise KeyError)) as Hfd.
  { destruct (find_data_run_spec h root) as (r & w & Hrun & Hsafe & _ & Hok).
    unfold find_data. rewrite Hrun. destruct r as [[]|x].
    - exfalso. destruct (Hok eq_refl) as [Hst Hc].
      unfold find_data_run in Hrun.
      apply (loop_ok_clean h _ _ _ Hrun) with (n := n) (x := KeyError).
      + intros k y Hk. by apply not_elem_of_empty in Hk.
      + by apply (complete_reachable h root).
      + by apply node_data_Raise.
    - unfold find_data_run in Hrun.
      apply loop_raise in Hrun as (k & _ & Hk).
      by apply node_data_Raise in Hk as [-> _]. }
  split; [done|]. intros. unfold execute_without_scope. by rewrite Hfd.
Qed.

Lemma find_data_key_error_witness :
  find_data Missing.graph Missing.root = Some (Raise KeyError).
Proof.
  exact (proj1 (find_data_key_error Missing.graph Missing.root
                  missing_reachable)).
Defined.

(** X2.  [find_data] raises nothing but that [KeyError], and when it
    raises, the root does lead to a node with a [source] whose dictionary
    lacks the name of the node. *)
Theorem find_data_raises_only_key_error (h : heap) (root : Expr) (x : exn) :
  find_data h root = Some (Raise x) →
  x = KeyError
  ∧ ∃ n, reachable h root n ∧ name_missing (get_node h n).
Proof.
  intros Hfd.
  destruct (find_data_run_spec h root) as (r & w & Hrun & Hsafe & _).
  unfold find_data in Hfd. rewrite Hrun in Hfd. destruct r as [[]|y]; [done|].
  injection Hfd as ->. unfold find_data_run in Hrun.
  apply loop_raise in Hrun as (k & Hk & Hnd).
  apply node_data_Raise in Hnd as [-> Hmiss]. split; [done|].
  exists k. split; [|done]. by apply (safe_seen _ _ _ Hsafe).
Qed.

Lemma find_data_raises_only_key_error_witness :
  KeyError = KeyError
  ∧ ∃ n, reachable Missing.graph Missing.root n
         ∧ name_missing (get_node Missing.graph n).
Proof.
  apply (find_data_raises_only_key_error Missing.graph Missing.root).
  vm_compute. reflexivity.
Defined.

(** X3.  The mapping that [find_data] returns is in the order of the
    recursive depth-first walk from the root, arguments from left to
    right: that walk ends, it lists exactly the nodes the root leads to,
    each once, and the keys of the mapping are the listed nodes that have
    data, in the order of the list. *)
Theorem find_data_preorder (h : heap) (root : Expr) (d : OD.t) :
  find_data h root = Some (Ok d) →
  ∃ fuel v s,
    (∀ fuel', fuel ≤ fuel' →
              recursive_preorder h fuel' ∅ [root] = Some (v, s))
    ∧ NoDup v
    ∧ (∀ n, n ∈ v ↔ reachable h root n)
    ∧ OD.keys d
      = filter (λ n, is_Some (node_data (get_node h n))) v.
Proof.
  intros (w & Hrun & <-)%find_data_Ok_inv.
  destruct (find_data_run_spec h root) as (r & w' & Hrun' & Hsafe & _ & Hok).
  rewrite Hrun in Hrun'. injection Hrun' as <- <-.
  destruct (Hok eq_refl) as [Hst Hc]. unfold find_data_run in Hrun.
  destruct (loop_preorder h _ _ _ Hrun) as (f & v & Hpre & Hv).
  cbn [walk_init seen stack visits app] in Hpre, Hv.
  change (reverse [root]) with [root] in Hpre. subst v.
  exists f, (visits w), (seen w). split_and!.
  - intros fuel' Hle. by apply (recursive_preorder_mono h f).
  - apply (safe_visits _ _ _ Hsafe).
  - intros n. rewrite (safe_visits_seen _ _ _ Hsafe). split.
    + apply (safe_seen _ _ _ Hsafe).
    + by apply complete_reachable.
  - apply (loop_keys h root _ _ _ Hrun); [apply safe_init | done].
Qed.

Lemma find_data_preorder_witness :
  ∃ fuel v s,
    (∀ fuel', fuel ≤ fuel' →
              recursive_preorder Example.graph fuel' ∅ [Example.root]
              = Some (v, s))
    ∧ OD.keys Example.leaves
      = filter (λ n, is_Some (node_data (get_node Example.graph n))) v.
Proof.
  destruct (find_data_preorder Example.graph Example.root Example.leaves)
    as (fuel & v & s & Hpre & _ & _ & Hkeys).
  - vm_compute. reflexivity.
  - exists fuel, v, s. split; [exact Hpre | exact Hkeys].
Defined.

(** ** The engine: context, failures, and what reaches the evaluators *)

Section EngineMore.

Variable h : heap.
Variables first node : evaluator.

Lemma replay_trans (s1 s2 s3 : Scope) (l1 l2 : list event) :
  s2 = replay first node l1 s1 → s3 = replay first node l2 s2 →
  s3 = replay first node (l1 ++ l2) s1.
Proof. intros -> ->. by rewrite replay_app. Qed.

Lemma compute_args_replay (fuel : nat) (c : option Context)
      (l : list pyobj) :
  post (λ s s' ev, s' = replay first node ev s)
       (compute_args (λ arg, execute_with_scope h first node fuel arg c) l).
Proof.
  apply post_compute_args; [done | apply replay_trans |].
  intros e s r s' ev. apply exec_replay.
Qed.

(** *** The context *)

Lemma Forall_context_trans (c : Context) (s1 s2 s3 : Scope)
      (l1 l2 : list event) :
  Forall (has_context c) l1 → Forall (has_context c) l2 →
  Forall (has_context c) (l1 ++ l2).
Proof. intros. by apply Forall_app. Qed.

Lemma exec_context (fuel : nat) (e : Expr) (c : option Context) :
  post (λ _ _ l, Forall (has_context (default Summarize c)) l)
       (execute_with_scope h first node fuel e c).
Proof.
  revert e c. induction fuel as [|fuel IH]; intros e c s r s' l.
  - simpl. destruct (OD.get (op e) s); [|done]. by intros [= <- <- <-].
  - rewrite exec_unfold. destruct (OD.get (op e) s).
    { by intros [= <- <- <-]. }
    cbv zeta. set (c' := default Summarize c).
    assert (post (λ _ _ l, Forall (has_context c') l)
              (general_case h node
                 (λ arg, execute_with_scope h first node fuel arg (Some c'))
                 (op e) c')) as Hgen.
    { unfold general_case.
      apply post_bind; [apply Forall_context_trans| |].
      - apply post_compute_args;
          [done | apply Forall_context_trans |].
        intros arg. apply (IH arg (Some c')).
      - intros computed s1 r1 s2 l1. unfold call_node.
        destruct (node (op e) computed s1 c'). intros [= <- <- <-].
        by apply Forall_singleton. }
    destruct (root_values s (get_node h (op e))) as [leaves|];
      [|apply Hgen].
    apply (post_or_else (λ _ _ l, Forall (has_context c') l)
             (Forall_context_trans c')); [|done].
    intros s1 r1 s2 l1. unfold call_first.
    destruct (first (op e) leaves s1 c'). intros [= <- <- <-].
    by apply Forall_singleton.
Qed.

(** *** Failures *)




(** *** What reaches [execute_node] *)

Lemma compute_args_values (rec : Expr → M pyobj) (l : list pyobj)
      (s s' : Scope) (vs : list pyobj) (evs : list event) :
  compute_args rec l s = Some (Ok vs, s', evs) →
  Forall2 passed_on (filter (λ a, is_valid_input a) l) vs.
Proof.
  revert s vs evs.
  induction l as [|a l IH]; intros s vs evs; cbn [compute_args].
  - intros [= <- <- <-]. constructor.
  - destruct (is_valid_input a) eqn:Ha.
    2:{ rewrite filter_cons_False; [apply IH|]. rewrite Ha. intros []. }
    rewrite filter_cons_True; [|rewrite Ha; exact I].
    intros [(y & [=] & _)|(v & s1 & l1 & l2 & E & E2 & ->)]%bind_Some.
    apply bind_Some in E2
      as [(y & [=] & _)|(ws & s2 & l3 & l4 & E2 & [= <- <- <-] & _)].
    constructor; [|by eapply IH].
    unfold passed_on. destruct (as_Expr a); [done|].
    by injection E as <- <- <-.
Qed.

End EngineMore.

(** ** The top-level entry point: more on merging and preloading *)

Lemma filter_ext_in {A} (P1 P2 : A → Prop)
      `{!∀ x, Decision (P1 x), !∀ x, Decision (P2 x)} (l : list A) :
  (∀ x, x ∈ l → P1 x ↔ P2 x) → filter P1 l = filter P2 l.
Proof.
  induction l as [|a l IH]; intros Hiff; [done|].
  rewrite !filter_cons, IH.
  - destruct (decide (P1 a)) as [H1|H1].
    + rewrite decide_True; [done|]. by apply Hiff; [apply list_elem_of_here|].
    + rewrite decide_False; [done|]. intros H2. apply H1.
      by apply Hiff; [apply list_elem_of_here|].
  - intros x Hx. by apply Hiff, list_elem_of_further.
Qed.

Lemma keys_update (d other : OD.t) :
  OD.wf other →
  OD.keys (OD.update d other)
  = OD.keys d ++ filter (λ k, k ∉ OD.keys d) (OD.keys other).
Proof.
  unfold OD.update, OD.wf. revert d.
  induction other as [|[k v] o IH]; intros d Hwf.
  - by rewrite app_nil_r.
  - change (OD.keys ((k, v) :: o)) with (k :: OD.keys o) in *.
    apply NoDup_cons in Hwf as [Hk Hwf].
    cbn [foldl fst snd]. rewrite IH by done. rewrite ODFacts.keys_set.
    destruct (decide (k ∈ OD.keys d)) as [Hin|Hnin].
    + rewrite filter_cons_False; [done|]. by intros [].
    + rewrite filter_cons_True by done. rewrite <- app_assoc. cbn [app].
      do 2 f_equal. apply filter_ext_in.
      intros k' Hk'. rewrite not_elem_of_app, list_elem_of_singleton.
      split; [by intros [] |]. intros Hd. split; [done|].
      intros ->. by apply Hk.
Qed.

Lemma last_filter_cons {A} (P : A → Prop) `{!∀ x, Decision (P x)}
      (x : A) (l : list A) :
  last (filter P (x :: l))
  = match last (filter P l) with
    | Some y => Some y
    | None => if decide (P x) then Some x else None
    end.
Proof.
  rewrite filter_cons. destruct (decide (P x)); [|by destruct (last _)].
  destruct (filter P l) as [|y l'] eqn:E; [done|].
  rewrite last_cons. by destruct (last (y :: l')).
Qed.

Lemma normalize_params_get_acc (params : list (param_key * pyobj))
      (acc : OD.t) (k : node_id) :
  OD.get k (foldl (λ acc kv, OD.set (normalize_key kv.1) kv.2 acc)
                  acc params)
  = match last (filter (λ kv, normalize_key kv.1 = k) params) with
    | Some kv => Some kv.2
    | None => OD.get k acc
    end.
Proof.
  revert acc. induction params as [|[pk v] ps IH]; intros acc; [done|].
  cbn [foldl]. rewrite IH, last_filter_cons. cbn [fst snd].
  destruct (last (filter _ ps)); [done|].
  rewrite ODFacts.get_set.
  destruct (decide (normalize_key pk = k)) as [<-|Hne].
  - by rewrite decide_True.
  - by rewrite decide_False.
Qed.

Section PreloadMore.

Variable preload : node_id → pyobj → Scope → result pyobj.

Lemma preload_items_total (n i : nat) (s : Scope) :
  is_Some (preload_items preload n i s).
Proof.
  revert i s. induction n as [|n IH]; intros i s; cbn [preload_items].
  - by eexists.
  - destruct (s !! i) as [[k raw]|]; [|by eexists].
    apply bind_total; [by eexists|]. intros v s1.
    apply bind_total; [by eexists|]. intros _ s2. apply IH.
Qed.

Lemma preload_items_context (c : Context) (n i : nat) :
  post (λ _ _ l, Forall (has_context c) l) (preload_items preload n i).
Proof.
  revert i. induction n as [|n IH]; intros i s r s' l; cbn [preload_items].
  - by intros [= <- <- <-].
  - destruct (s !! i) as [[k raw]|]; [|by intros [= <- <- <-]].
    revert s r s' l.
    apply (post_bind (λ _ _ l, Forall (has_context c) l)).
    { intros _ _ _ l1 l2. apply Forall_app_2. }
    { intros s r s' l [= <- <- <-]. by apply Forall_singleton. }
    intros v. apply (post_bind (λ _ _ l, Forall (has_context c) l)).
    { intros _ _ _ l1 l2. apply Forall_app_2. }
    { by intros s r s' l [= <- <- <-]. }
    intros _. apply IH.
Qed.

(** The pass stops at the first item that the hook refuses: the items
    before it are replaced, this one and the ones after it are not. *)
Lemma preload_items_raise (n i : nat) (s s' : Scope) (x : exn)
      (l : list event) :
  OD.wf s →
  preload_items preload n i s = Some (Raise x, s', l) →
  ∃ j k v,
    i ≤ j ∧ s !! j = Some (k, v)
    ∧ preload k v s' = Raise x
    ∧ l = preload_event <$> take (S j - i) (drop i s)
    ∧ OD.keys s' = OD.keys s
    ∧ drop j s' = drop j s.
Proof.
  revert i s s' l. induction n as [|n IH]; intros i s s' l Hwf; [done|].
  cbn [preload_items]. destruct (s !! i) as [[k0 raw]|] eqn:Hi; [|done].
  pose proof (lookup_lt_Some _ _ _ Hi) as Hlt.
  intros [(y & [= <-] & E)|(w & s1 & l1 & l2 & E & E2 & ->)]%bind_Some;
    unfold call_preload in E.
  - injection E as Hx <- <-. exists i, k0, raw.
    rewrite (drop_S s (k0, raw) i Hi).
    replace (S i - i) with 1 by lia. by split_and!.
  - injection E as Hw <- <-.
    apply bind_Some in E2
      as [(y & _ & [=])|([] & s2 & l3 & l4 & E2 & E3 & ->)].
    unfold set_item in E2. injection E2 as <- <-.
    rewrite (ODFacts.set_lookup i k0 raw w s Hwf Hi) in E3.
    apply IH in E3 as (j & k & v & Hj & Hjs & Hraise & Hl & Hkeys & Hdrop).
    2:{ unfold OD.wf. by rewrite (keys_insert i k0 raw w s Hi). }
    exists j, k, v. split_and!.
    + lia.
    + by rewrite list_lookup_insert_ne in Hjs by lia.
    + done.
    + rewrite Hl, drop_insert_lt by lia.
      rewrite (drop_S s (k0, raw) i Hi).
      replace (S j - i) with (S (S j - S i)) by lia. done.
    + by rewrite Hkeys, (keys_insert i k0 raw w s Hi).
    + by rewrite Hdrop, drop_insert_lt by lia.
Qed.

End PreloadMore.

Lemma refuse_bound_run :
  preload_items refuse_bound 3 0 (new_scope None None Example.leaves)
  = Some (Raise (OtherError "refused"),
          new_scope None None Example.leaves,
          [CallPreload Example.Lit2 (PInt 2);
           CallPreload Example.BoundX (PInt 5)]).
Proof. vm_compute. reflexivity. Qed.

Lemma example_ranked (n : node_id) (e : Expr) :
  e ∈ expr_args (get_node Example.graph n) → id (op e) < id n.
Proof.
  intros He. unfold id.
  do 5 (destruct n as [|n];
        [vm_compute in He; apply list_elem_of_In in He; simpl in He;
         intuition (subst; simpl; lia)|]).
  vm_compute in He. by apply elem_of_nil in He.
Qed.

(** X4.  Every call of an evaluator in a run carries one and the same
    context: the one the caller gave, or [Summarize] when the caller gave
    none.  This holds for a call of [execute_with_scope], whose recursion
    hands the context on, and for a call of [execute_without_scope]. *)
Theorem context_reaches_every_call (h : heap) (first node : evaluator)
        (preload : node_id → pyobj → Scope → result pyobj) (fuel : nat)
        (e : Expr) (c : option Context) :
  (∀ s r s' l,
      execute_with_scope h first node fuel e c s = Some (r, s', l) →
      Forall (has_context (default Summarize c)) l)
  ∧ (∀ params scope r s' l,
        execute_without_scope h first node preload fuel e params scope c
        = Some (r, s', l) →
        Forall (has_context (default Summarize c)) l).
Proof.
  split.
  - intros s r s' l. apply exec_context.
  - intros params scope r s' l. unfold execute_without_scope.
    destruct (find_data h e) as [[d|x]|]; [| |done].
    2:{ by intros [= <- <- <-]. }
    destruct d as [|kv d]; [by intros [= <- <- <-]|].
    revert r s' l.
    apply (post_bind (λ _ _ l, Forall (has_context (default Summarize c)) l)).
    + intros _ _ _ l1 l2. apply Forall_app_2.
    + apply preload_items_context.
    + intros _ s r s' l.
      apply (exec_context h first node fuel e (Some (default Summarize c))).
Qed.



(** X6.  The value that [execute_with_scope] returns for a node that is
    not a key of the scope is what an evaluator returned for that very
    node: either [execute_first], called once on the values of the root
    tables and before anything else, or [execute_node], called last, on
    one argument for each argument of the node that is of a valid input
    type; those that are not expressions are handed on unchanged and in
    order, the others (strings among them) are left out. *)
Theorem value_comes_from_root_call (h : heap) (first node : evaluator)
        (fuel : nat) (e : Expr) (c : option Context) (s s' : Scope)
        (v : pyobj) (l : list event) :
  OD.get (op e) s = None →
  execute_with_scope h first node (S fuel) e c s = Some (Ok v, s', l) →
  (∃ leaves,
      root_values s (get_node h (op e)) = Some leaves
      ∧ l = [CallFirst (op e) leaves (default Summarize c)]
      ∧ first (op e) leaves s (default Summarize c) = (Ok v, s'))
  ∨ (∃ l0 computed,
        l = l0 ++ [CallNode (op e) computed (default Summarize c)]
        ∧ node (op e) computed (replay first node l0 s)
               (default Summarize c) = (Ok v, s')
        ∧ Forall2 passed_on
            (filter (λ a, is_valid_input a) (args (get_node h (op e))))
            computed).
Proof.
  intros Hget. rewrite exec_unfold, Hget. cbv zeta.
  set (c' := default Summarize c).
  assert (∀ s1 l1,
             general_case h node
               (λ arg, execute_with_scope h first node fuel arg (Some c'))
               (op e) c' s1 = Some (Ok v, s', l1) →
             ∃ l0 computed,
               l1 = l0 ++ [CallNode (op e) computed c']
               ∧ node (op e) computed (replay first node l0 s1) c'
                 = (Ok v, s')
               ∧ Forall2 passed_on
                   (filter (λ a, is_valid_input a)
                           (args (get_node h (op e))))
                   computed) as Hgen.
  { intros s1 l1
      [(y & [=] & _)|(vs & s3 & l2 & l3 & E & E2 & ->)]%bind_Some.
    pose proof (compute_args_values _ _ _ _ _ _ E) as Hvs.
    apply compute_args_replay in E. unfold call_node in E2.
    destruct (node (op e) vs s3 c') as [r3 s4] eqn:Hn.
    injection E2 as -> <- <-. exists l2, vs. by rewrite <- E. }
  destruct (root_values s (get_node h (op e))) as [leaves|].
  2:{ intros Hrun. right. by apply Hgen. }
  intros [[E _]|(s1 & l1 & l2 & E & E2 & ->)]%or_else_Some;
    unfold call_first in E;
    destruct (first (op e) leaves s c') as [r1 s0] eqn:Hf.
  - injection E as -> <- <-. left. by exists leaves.
  - injection E as -> <- <-. right.
    destruct (Hgen _ _ E2) as (l0 & computed & -> & Hn & Hvs).
    exists (CallFirst (op e) leaves c' :: l0), computed.
    split_and!; [done | | done]. cbn [replay]. by rewrite Hf.
Qed.

Lemma value_comes_from_root_call_witness :
  ∃ l0 computed,
    [CallFirst Example.Root [PInt 5] Summarize;
     CallFirst Example.Inner [PInt 5] Summarize;
     CallNode Example.Inner [PInt 5; PInt 3] Summarize;
     CallNode Example.Root [PInt 2; PInt 8] Summarize]
    = l0 ++ [CallNode Example.Root computed Summarize]
    ∧ Example.add_node Example.Root computed
        (replay not_registered Example.add_node l0 Example.leaves)
        Summarize
      = (Ok (PInt 10), Example.leaves).
Proof.
  destruct (value_comes_from_root_call Example.graph not_registered
              Example.add_node 1 Example.root None Example.leaves
              Example.leaves (PInt 10)
              [CallFirst Example.Root [PInt 5] Summarize;
               CallFirst Example.Inner [PInt 5] Summarize;
               CallNode Example.Inner [PInt 5; PInt 3] Summarize;
               CallNode Example.Root [PInt 2; PInt 8] Summarize])
    as [(leaves & _ & Hl & _)|(l0 & computed & Hl & Hn & _)].
  - reflexivity.
  - vm_compute. reflexivity.
  - discriminate Hl.
  - exists l0, computed. split; [exact Hl | exact Hn].
Defined.

(** X7.  The normalized overrides: a key that is an expression stands for
    its node, and when several keys of [params] stand for one node, the
    value of the last of them is the override; the result is a dictionary
    (no node twice). *)
Theorem normalize_params_last_wins (params : list (param_key * pyobj))
        (k : node_id) :
  OD.get k (normalize_params params)
  = snd <$> last (filter (λ kv, normalize_key kv.1 = k) params)
  ∧ OD.wf (normalize_params params).
Proof.
  split; [|apply ODFacts.wf_normalize_params].
  unfold normalize_params. rewrite normalize_params_get_acc.
  by destruct (last _).
Qed.

(** X8.  The order of the merged scope, which is the order in which the
    preload hook meets the nodes: first the keys of the explicit scope, in
    their order, then the discovered nodes that the explicit scope does
    not have, then the overridden nodes that neither has.  An override or
    a discovered binding for a node of the explicit scope takes the place
    of that node's value and does not move it. *)
Theorem new_scope_key_order (scope : option Scope)
        (params : option (list (param_key * pyobj))) (d : OD.t) :
  OD.wf (default OD.empty scope) → OD.wf d →
  OD.keys (new_scope scope params d)
  = OD.keys (default OD.empty scope)
    ++ filter (λ k, k ∉ OD.keys (default OD.empty scope)) (OD.keys d)
    ++ filter (λ k, k ∉ OD.keys (default OD.empty scope) ++ OD.keys d)
              (OD.keys (normalize_params (default [] params))).
Proof.
  intros Hscope Hd. unfold new_scope, toolz_merge. cbn [foldl].
  rewrite !keys_update;
    [| done | done | apply ODFacts.wf_normalize_params].
  cbn [OD.keys OD.empty fmap list_fmap app].
  rewrite (filter_all (λ k, k ∉ [])) by (intros; apply not_elem_of_nil).
  rewrite <- app_assoc. do 2 f_equal.
  apply list_filter_iff. intros k.
  rewrite !not_elem_of_app, list_elem_of_filter. tauto.
Qed.

Lemma new_scope_key_order_witness :
  OD.keys (new_scope (Some [(7, PInt 0); (Example.BoundX, PInt 1)])
                     (Some [(KNode 9, PInt 4);
                            (KExpr (mkExpr Example.Lit3), PInt 6)])
                     Example.leaves)
  = [7; Example.BoundX; Example.Lit2; Example.Lit3; 9].
Proof.
  rewrite new_scope_key_order.
  - vm_compute. reflexivity.
  - apply (bool_decide_unpack _). vm_compute. exact I.
  - apply (bool_decide_unpack _). vm_compute. exact I.
Defined.

(** X9.  When the node of the root expression is itself a key of the
    merged scope (it is a literal or a bound table, or the caller gave it
    in [scope] or in [params]) and the preload pass ends normally,
    [execute_without_scope] returns the preloaded value of that node, for
    every fuel, and has called nothing but the preload hook. *)
Theorem root_in_scope_is_returned (h : heap) (first node : evaluator)
        (preload : node_id → pyobj → Scope → result pyobj) (root : Expr)
        (params : option (list (param_key * pyobj)))
        (scope : option Scope) (context : option Context) (d : OD.t)
        (s' : Scope) (l : list event) :
  find_data h root = Some (Ok d) →
  d ≠ [] →
  preload_items preload (length (new_scope scope params d)) 0
                (new_scope scope params d) = Some (Ok tt, s', l) →
  op root ∈ OD.keys (new_scope scope params d) →
  ∃ r,
    OD.get (op root) s' = Some r
    ∧ l = preload_event <$> new_scope scope params d
    ∧ ∀ fuel,
        execute_without_scope h first node preload fuel root params scope
                              context
        = Some (Ok r, s', l).
Proof.
  intros Hfd Hd Hpre Hroot.
  pose proof (ODFacts.wf_merge
                [default OD.empty scope; d;
                 normalize_params (default [] params)]) as Hwf.
  fold (new_scope scope params d) in Hwf.
  destruct (preload_items_spec preload _ 0 _ s' l Hwf (Nat.le_refl _) Hpre)
    as (Hl & Hkeys & _).
  rewrite drop_0 in Hl. rewrite <- Hkeys in Hroot.
  apply ODFacts.get_is_Some in Hroot as [r Hr].
  exists r. split_and!; [done..|]. intros fuel.
  rewrite (execute_without_scope_unfold h first node preload fuel root
             params scope context d Hfd Hd).
  rewrite (bind_Ok _ _ _ _ _ _ Hpre).
  rewrite (exec_hit h first node fuel root _ s' r Hr).
  by rewrite app_nil_r.
Qed.

Lemma root_in_scope_is_returned_witness :
  ∃ r,
    OD.get Example.Root
           [(Example.Lit2, PInt 2); (Example.BoundX, PInt 5);
            (Example.Lit3, PInt 3); (Example.Root, PInt 42)] = Some r
    ∧ execute_without_scope Example.graph not_registered Example.add_node
        Example.keep 0 Example.root
        (Some [(KExpr Example.root, PInt 42)]) None None
      = Some (Ok r,
              [(Example.Lit2, PInt 2); (Example.BoundX, PInt 5);
               (Example.Lit3, PInt 3); (Example.Root, PInt 42)],
              [CallPreload Example.Lit2 (PInt 2);
               CallPreload Example.BoundX (PInt 5);
               CallPreload Example.Lit3 (PInt 3);
               CallPreload Example.Root (PInt 42)]).
Proof.
  destruct (root_in_scope_is_returned Example.graph not_registered
              Example.add_node Example.keep Example.root
              (Some [(KExpr Example.root, PInt 42)]) None None
              Example.leaves
              [(Example.Lit2, PInt 2); (Example.BoundX, PInt 5);
               (Example.Lit3, PInt 3); (Example.Root, PInt 42)]
              [CallPreload Example.Lit2 (PInt 2);
               CallPreload Example.BoundX (PInt 5);
               CallPreload Example.Lit3 (PInt 3);
               CallPreload Example.Root (PInt 42)])
    as (r & Hr & _ & Hrun).
  - vm_compute. reflexivity.
  - discriminate.
  - vm_compute. reflexivity.
  - apply (bool_decide_unpack _). vm_compute. exact I.
  - exists r. split; [exact Hr | exact (Hrun 0)].
Defined.

(** X10.  When the preload hook raises for an item of the merged scope,
    [execute_without_scope] raises that exception and calls no evaluator.
    The hook has then been called once for each item up to that one, in
    order, and for none after it; it raised on the scope as it is left;
    and that item and the items after it still hold their merged
    values. *)
Theorem preload_failure_aborts (h : heap) (first node : evaluator)
        (preload : node_id → pyobj → Scope → result pyobj) (fuel : nat)
        (root : Expr) (params : option (list (param_key * pyobj)))
        (scope : option Scope) (context : option Context) (d : OD.t)
        (s' : Scope) (x : exn) (l : list event) :
  find_data h root = Some (Ok d) →
  d ≠ [] →
  preload_items preload (length (new_scope scope params d)) 0
                (new_scope scope params d) = Some (Raise x, s', l) →
  execute_without_scope h first node preload fuel root params scope context
  = Some (Raise x, s', l)
  ∧ ∃ j k v,
      new_scope scope params d !! j = Some (k, v)
      ∧ preload k v s' = Raise x
      ∧ l = preload_event <$> take (S j) (new_scope scope params d)
      ∧ drop j s' = drop j (new_scope scope params d).
Proof.
  intros Hfd Hd Hpre. split.
  - rewrite (execute_without_scope_unfold h first node preload fuel root
               params scope context d Hfd Hd).
    unfold bind. by rewrite Hpre.
  - pose proof (ODFacts.wf_merge
                  [default OD.empty scope; d;
                   normalize_params (default [] params)]) as Hwf.
    fold (new_scope scope params d) in Hwf.
    destruct (preload_items_raise preload _ 0 _ s' x l Hwf Hpre)
      as (j & k & v & _ & Hj & Hraise & Hl & _ & Hdrop).
    exists j, k, v. rewrite drop_0, Nat.sub_0_r in Hl. by split_and!.
Qed.

Lemma preload_failure_aborts_witness :
  execute_without_scope Example.graph not_registered Example.add_node
    refuse_bound 5 Example.root None None None
  = Some (Raise (OtherError "refused"),
          new_scope None None Example.leaves,
          [CallPreload Example.Lit2 (PInt 2);
           CallPreload Example.BoundX (PInt 5)]).
Proof.
  refine (proj1 (preload_failure_aborts Example.graph not_registered
                   Example.add_node refuse_bound 5 Example.root None None
                   None Example.leaves _ _ _ _ _ _)).
  - vm_compute. reflexivity.
  - discriminate.
  - exact refuse_bound_run.
Defined.

(** X11.  On a graph without cycles, where the arguments of a node rank
    below it, [execute_without_scope] ends, whatever the evaluators, the
    hook, the scope and the overrides are: the walk of [find_data] ends,
    the preload pass ends, and the recursion of [execute_with_scope] goes
    no deeper than the rank of the root.  More fuel than that changes
    nothing. *)
Theorem run_ends_on_acyclic_graph (h : heap) (first node : evaluator)
        (preload : node_id → pyobj → Scope → result pyobj) (root : Expr)
        (params : option (list (param_key * pyobj)))
        (scope : option Scope) (context : option Context)
        (rank : node_id → nat) :
  (∀ n e, e ∈ expr_args (get_node h n) → rank (op e) < rank n) →
  ∃ x,
    ∀ fuel, rank (op root) < fuel →
      execute_without_scope h first node preload fuel root params scope
                            context = Some x.
Proof.
  intros Hrank.
  assert (is_Some (execute_without_scope h first node preload
                     (S (rank (op root))) root params scope context))
    as [x Hx].
  { unfold execute_without_scope.
    destruct (find_data_total h root) as [[d|y] ->]; [|by eexists].
    destruct d as [|kv d]; [by eexists|].
    apply bind_total; [apply preload_items_total|].
    intros _ s1. apply (exec_total h first node rank); [done | lia]. }
  exists x. intros fuel Hfuel.
  apply (execute_without_scope_mono h first node preload
           (S (rank (op root)))); [lia | done].
Qed.

Lemma run_ends_on_acyclic_graph_witness :
  ∃ x, ∀ fuel, 4 < fuel → Example.run fuel = Some x.
Proof.
  exact (run_ends_on_acyclic_graph Example.graph not_registered
           Example.add_node Example.keep Example.root None None None id
           example_ranked).
Defined.
